(** * Prefix: a file organizer driven by filename prefix/suffix rules

    A shallow embedding of [file-organizer.go]: the rule matcher
    ([matchesPattern]), the relocator ([moveFile], [copyFile]), the batch
    pass ([organizeFiles]), the start-up sequence of [main] and its
    debounced watch loop, together with a small model of the [os] calls
    they are written against. *)

From Stdlib Require Import ZArith Lia Bool Ascii String List.
From stdpp Require Import base option list strings gmap sorting.

Local Open Scope Z_scope.
Local Open Scope string_scope.

(** ** Go strings *)

(** A Go string is a sequence of bytes; [string] is a list of 8-bit
    characters, with [String.length] for [len]. *)
Module strings.

(** [strings.HasPrefix]:
    [len(s) >= len(prefix) && s[:len(prefix)] == prefix]. *)
Definition HasPrefix (s prefix : string) : bool :=
  (String.length prefix <=? String.length s)%nat
  && String.eqb (String.substring 0 (String.length prefix) s) prefix.

(** [strings.HasSuffix]:
    [len(s) >= len(suffix) && s[len(s)-len(suffix):] == suffix]. *)
Definition HasSuffix (s suffix : string) : bool :=
  (String.length suffix <=? String.length s)%nat
  && String.eqb
       (String.substring (String.length s - String.length suffix)
                         (String.length suffix) s)
       suffix.

End strings.

(** What the spec calls "starts with" and "ends with". *)
Definition starts_with (f p : string) : Prop := exists rest, f = p +:+ rest.
Definition ends_with (f s : string) : Prop := exists front, f = front +:+ s.

(** ** Configuration *)

(** The program holds its paths as strings and only ever builds them with
    [filepath.Join] and takes them apart with [filepath.Dir]. Here a path
    is kept the way [filepath.Clean] leaves it, one string per element,
    from the root. *)
Definition path := list string.

Module filepath.
(** [filepath.Join(dir, name)] for a base name [name]. *)
Definition Join (dir : path) (name : string) : path := (dir ++ [name])%list.
(** [filepath.Dir]: all but the last element; the root is its own parent. *)
Definition Dir (p : path) : path := removelast p.
End filepath.

(** The two structs the YAML configuration is read into. *)
Record Destination := {
  Path : path;
  Prefix : string;
  Suffix : string
}.

Record Config := {
  DumpDirectory : path;
  Destinations : list Destination
}.

(** ** Rule matcher *)

Definition nonempty (s : string) : bool := negb (String.eqb s "").

Definition matchesPattern (filename : string) (dest : Destination) : bool :=
  if nonempty (Prefix dest) && nonempty (Suffix dest) then
    strings.HasPrefix filename (Prefix dest)
    && strings.HasSuffix filename (Suffix dest)
  else if nonempty (Prefix dest) then
    strings.HasPrefix filename (Prefix dest)
  else if nonempty (Suffix dest) then
    strings.HasSuffix filename (Suffix dest)
  else false.

(** ** The file system behind package [os] *)

(** Error numbers the calls below can report. *)
Inductive errno :=
  ENOENT | ENOTDIR | EISDIR | EEXIST | EXDEV | ENOTEMPTY | EINVAL | ENOSPC.

(** Go's [error] values, as this program builds and receives them. *)
Inductive error :=
| PathError (op : string) (p : path) (e : errno)
    (* what package os returns: fs.PathError, os.LinkError *)
| Errorf (msg : string) (cause : error)
    (* fmt.Errorf(msg + ": %w", cause) *)
| DestinationExists (destPath : path).
    (* fmt.Errorf("destination file already exists: %s", destPath) *)

(** A directory tree: a file has its bytes and permission bits, a
    directory its permission bits and its entries by name. *)
#[warnings="-register-all"]
Inductive node :=
| File (data : list Byte.byte) (mode : Z)
| Directory (mode : Z) (entries : gmap string node).

(** The root is a directory, given by its entries; [device] says on which
    mounted volume a path lives, [umask] is the process's mask. *)
Record FS := {
  root : gmap string node;
  device : path -> Z;
  umask : Z
}.

Definition withRoot (σ : FS) (es : gmap string node) : FS :=
  {| root := es; device := device σ; umask := umask σ |}.

(** 0o755, 0o666 and the bits [Chmod] looks at (0o7777). *)
Definition perm755 : Z := 493.
Definition perm666 : Z := 438.
Definition permMask : Z := 4095.

(** What [os.Stat] tells about a node. *)
Record FileInfo := { Size : Z; Mode : Z; ModeIsDir : bool }.

Record DirEntry := { Name : string; IsDir : bool }.

Definition nodeIsDir (n : node) : bool :=
  match n with File _ _ => false | Directory _ _ => true end.

Definition infoOf (n : node) : FileInfo :=
  match n with
  | File data mode =>
      {| Size := Z.of_nat (length data); Mode := mode; ModeIsDir := false |}
  | Directory mode _ =>
      {| Size := 0; Mode := mode; ModeIsDir := true |}
  end.

Module fsys.

(** Path resolution: go down one element at a time; every node passed on
    the way has to be a directory. *)
Fixpoint walk (n : node) (p : path) : errno + node :=
  match p with
  | [] => inr n
  | c :: rest =>
      match n with
      | File _ _ => inl ENOTDIR
      | Directory _ es =>
          match es !! c with
          | None => inl ENOENT
          | Some n' => walk n' rest
          end
      end
  end.

Definition rootNode (σ : FS) : node := Directory perm755 (root σ).

Definition resolve (σ : FS) (p : path) : errno + node := walk (rootNode σ) p.

(** Change the entry named by the last element of [p] in the directory
    the rest of [p] leads to; nothing happens when that is no directory. *)
Fixpoint modify (f : option node -> option node) (es : gmap string node)
    (p : path) : gmap string node :=
  match p with
  | [] => es
  | c :: rest =>
      match rest with
      | [] => partial_alter f c es
      | _ :: _ =>
          match es !! c with
          | Some (Directory m sub) => <[c := Directory m (modify f sub rest)]> es
          | _ => es
          end
      end
  end.

Definition put (σ : FS) (p : path) (n : node) : FS :=
  withRoot σ (modify (fun _ => Some n) (root σ) p).

Definition unlink (σ : FS) (p : path) : FS :=
  withRoot σ (modify (fun _ => None) (root σ) p).

Definition isEmpty (es : gmap string node) : bool :=
  match map_to_list es with [] => true | _ :: _ => false end.

(** stat(2). *)
Definition Stat (σ : FS) (p : path) : errno + FileInfo :=
  match resolve σ p with
  | inl e => inl e
  | inr n => inr (infoOf n)
  end.

(** mkdir(2). *)
Definition Mkdir (σ : FS) (p : path) (perm : Z) : FS * option errno :=
  match resolve σ p with
  | inr _ => (σ, Some EEXIST)
  | inl _ =>
      match p with
      | [] => (σ, Some ENOENT)
      | _ :: _ =>
          match resolve σ (filepath.Dir p) with
          | inr (Directory _ _) =>
              (put σ p (Directory (Z.ldiff perm (umask σ)) ∅), None)
          | inr (File _ _) => (σ, Some ENOTDIR)
          | inl e => (σ, Some e)
          end
      end
  end.

(** [os.MkdirAll], on the path read from its last element: a directory
    that is there is fine, a file in the way is ENOTDIR; otherwise the
    parent is made first and then the directory itself, and an error of
    that last [Mkdir] is dropped when the directory is there after all. *)
Fixpoint MkdirAll_up (σ : FS) (rpath : list string) (perm : Z)
  : FS * option errno :=
  match Stat σ (rev rpath) with
  | inr dir => (σ, if ModeIsDir dir then None else Some ENOTDIR)
  | inl _ =>
      match rpath with
      | [] => (σ, Some ENOENT)
      | _ :: parent =>
          match MkdirAll_up σ parent perm with
          | (σ', Some e) => (σ', Some e)
          | (σ', None) =>
              match Mkdir σ' (rev rpath) perm with
              | (σ'', Some e) =>
                  match Stat σ'' (rev rpath) with
                  | inr dir => (σ'', if ModeIsDir dir then None else Some e)
                  | inl _ => (σ'', Some e)
                  end
              | (σ'', None) => (σ'', None)
              end
          end
      end
  end.

Definition MkdirAll (σ : FS) (p : path) (perm : Z) : FS * option errno :=
  MkdirAll_up σ (rev p) perm.

(** rename(2): both names on one volume, [dst]'s directory there, a
    file never replaces a directory nor a directory a file, and a
    directory replaces only an empty one. *)
Definition Rename (σ : FS) (src dst : path) : FS * option errno :=
  match resolve σ src with
  | inl e => (σ, Some e)
  | inr n =>
      match dst with
      | [] => (σ, Some EINVAL)
      | _ :: _ =>
          match resolve σ (filepath.Dir dst) with
          | inl e => (σ, Some e)
          | inr (File _ _) => (σ, Some ENOTDIR)
          | inr (Directory _ _) =>
              if negb (Z.eqb (device σ src) (device σ dst)) then (σ, Some EXDEV)
              else if bool_decide (src = dst) then (σ, None)
              else if bool_decide (src `prefix_of` dst) then (σ, Some EINVAL)
              else
                match n, resolve σ dst with
                | File _ _, inr (Directory _ _) => (σ, Some EISDIR)
                | Directory _ _, inr (File _ _) => (σ, Some ENOTDIR)
                | Directory _ _, inr (Directory _ es) =>
                    if isEmpty es then (put (unlink σ src) dst n, None)
                    else (σ, Some ENOTEMPTY)
                | _, _ => (put (unlink σ src) dst n, None)
                end
          end
      end
  end.

(** [os.Open]: the handle is the path; reading happens in [Copy]. *)
Definition Open (σ : FS) (p : path) : errno + path :=
  match resolve σ p with
  | inl e => inl e
  | inr _ => inr p
  end.

(** [os.Create]: O_RDWR|O_CREATE|O_TRUNC with mode 0o666. *)
Definition Create (σ : FS) (p : path) : FS * (errno + path) :=
  match resolve σ p with
  | inr (Directory _ _) => (σ, inl EISDIR)
  | inr (File _ mode) => (put σ p (File [] mode), inr p)
  | inl _ =>
      match p with
      | [] => (σ, inl ENOENT)
      | _ :: _ =>
          match resolve σ (filepath.Dir p) with
          | inr (Directory _ _) =>
              (put σ p (File [] (Z.ldiff perm666 (umask σ))), inr p)
          | inr (File _ _) => (σ, inl ENOTDIR)
          | inl e => (σ, inl e)
          end
      end
  end.

(** [io.Copy(dst, src)]: all of [src]'s bytes, written from the start of
    the file [dst] was just created as. Reading a directory fails. *)
Definition Copy (σ : FS) (dst src : path) : FS * (errno + Z) :=
  match resolve σ src, resolve σ dst with
  | inr (File data _), inr (File _ mode) =>
      (put σ dst (File data mode), inr (Z.of_nat (length data)))
  | inr (Directory _ _), _ => (σ, inl EISDIR)
  | _, _ => (σ, inl ENOENT)
  end.

(** [os.Chmod]: only the permission bits of [mode] are used. *)
Definition Chmod (σ : FS) (p : path) (mode : Z) : FS * option errno :=
  match resolve σ p with
  | inl e => (σ, Some e)
  | inr (File data _) => (put σ p (File data (Z.land mode permMask)), None)
  | inr (Directory _ es) =>
      (put σ p (Directory (Z.land mode permMask) es), None)
  end.

(** [os.Remove]: a file, or a directory with nothing in it. *)
Definition Remove (σ : FS) (p : path) : FS * option errno :=
  match resolve σ p with
  | inl e => (σ, Some e)
  | inr (File _ _) => (unlink σ p, None)
  | inr (Directory _ es) =>
      match p with
      | [] => (σ, Some EINVAL)
      | _ :: _ =>
          if isEmpty es then (unlink σ p, None) else (σ, Some ENOTEMPTY)
      end
  end.

Definition nameLe (a b : DirEntry) : Prop := String.leb (Name a) (Name b) = true.

#[global] Instance nameLe_dec : RelDecision nameLe.
Proof. intros a b. unfold nameLe. apply _. Defined.

Definition entryOf (kv : string * node) : DirEntry :=
  {| Name := kv.1; IsDir := nodeIsDir kv.2 |}.

(** [os.ReadDir]: the entries of the directory, sorted by filename. *)
Definition ReadDir (σ : FS) (dir : path) : errno + list DirEntry :=
  match resolve σ dir with
  | inl e => inl e
  | inr (File _ _) => inl ENOTDIR
  | inr (Directory _ es) => inr (merge_sort nameLe (entryOf <$> map_to_list es))
  end.

End fsys.

(** ** The program's world: the file system and the log *)

(** One constructor for each kind of line the program writes with
    [log.Printf]. *)
Inductive LogEntry :=
| LogFailure (what : string) (err : option error)
    (* "<what>: %v" *)
| LogDestinationExists (destPath : path)
    (* "destination file already exists: %s" *)
| LogMoving (sourcePath destPath : path)
    (* "Moving: %s -> %s" *)
| LogErrorMoving (filename : string) (err : error)
    (* "Error moving %s: %v" *)
| LogSuccess (filename : string)
    (* "Success: %s" *)
| LogNoMatch (filename : string)
    (* "No match found for: %s" *)
| LogSummary (movedCount skippedCount : Z)
    (* "Summary: %d files moved, %d files skipped" *)
| LogLine (text : string)
    (* a line without arguments that matter here *)
| LogError (err : error)
    (* log.Println(err) *)
| LogFatal (what : string) (err : option error).
    (* log.Fatal, log.Fatalf: the line written before os.Exit(1) *)

Record World := {
  fs : FS;
  logged : list LogEntry
}.

(** A computation reads and updates the world and hands back a value. *)
Definition M (A : Type) : Type := World -> A * World.

Definition ret {A} (a : A) : M A := fun w => (a, w).

Definition bind {A B} (m : M A) (k : A -> M B) : M B :=
  fun w => let (a, w') := m w in k a w'.

Notation "x <- m ;; k" := (bind m (fun x => k))
  (at level 62, m at next level, right associativity).
Notation "m ;;; k" := (bind m (fun _ => k))
  (at level 62, right associativity).

(** [log.Printf]. *)
Definition Printf (e : LogEntry) : M unit :=
  fun w => (tt, {| fs := fs w; logged := (logged w ++ [e])%list |}).

(** Lifting of a call that may change the tree. *)
Definition sys {A} (f : FS -> FS * A) : M A :=
  fun w => let (σ, a) := f (fs w) in (a, {| fs := σ; logged := logged w |}).

(** Lifting of a call that only looks at the tree. *)
Definition ask {A} (f : FS -> A) : M A := fun w => (f (fs w), w).

Definition opErr (op : string) (p : path) (e : option errno) : option error :=
  match e with Some e => Some (PathError op p e) | None => None end.

Definition opRes {A} (op : string) (p : path) (r : errno + A) : error + A :=
  match r with inl e => inl (PathError op p e) | inr a => inr a end.

Module os.

Definition MkdirAll (p : path) (perm : Z) : M (option error) :=
  e <- sys (fun σ => fsys.MkdirAll σ p perm) ;; ret (opErr "mkdir" p e).

Definition Stat (p : path) : M (error + FileInfo) :=
  r <- ask (fun σ => fsys.Stat σ p) ;; ret (opRes "stat" p r).

Definition Rename (src dst : path) : M (option error) :=
  e <- sys (fun σ => fsys.Rename σ src dst) ;; ret (opErr "rename" src e).

Definition Open (p : path) : M (error + path) :=
  r <- ask (fun σ => fsys.Open σ p) ;; ret (opRes "open" p r).

Definition Create (p : path) : M (error + path) :=
  r <- sys (fun σ => fsys.Create σ p) ;; ret (opRes "open" p r).

Definition Chmod (p : path) (mode : Z) : M (option error) :=
  e <- sys (fun σ => fsys.Chmod σ p mode) ;; ret (opErr "chmod" p e).

Definition Remove (p : path) : M (option error) :=
  e <- sys (fun σ => fsys.Remove σ p) ;; ret (opErr "remove" p e).

Definition ReadDir (p : path) : M (error + list DirEntry) :=
  r <- ask (fun σ => fsys.ReadDir σ p) ;; ret (opRes "open" p r).

(** [File.Close]: an open file closes without error (nothing is
    buffered in this model); the nil file a failed open leaves behind
    answers with an error. *)
Definition Close (f : option path) : M (option error) :=
  match f with
  | Some _ => ret None
  | None => ret (Some (PathError "close" [] EINVAL))
  end.

End os.

Module io.
Definition Copy (dst src : path) : M (error + Z) :=
  r <- sys (fun σ => fsys.Copy σ dst src) ;; ret (opRes "read" src r).
End io.

(** ** File relocator *)

(** The closure [copyFile] defers after each open: it closes the file, and
    when the function's [err] variable is nil at that moment it writes its
    line and stores the result of [Close] in [err]. The variable is local,
    so the value [copyFile] returns is not touched. *)
Definition deferredClose (what : string) (f : option path) (err : option error)
  : M (option error) :=
  closeErr <- os.Close f ;;
  match err with
  | None => Printf (LogFailure what err) ;;; ret closeErr
  | Some _ => ret err
  end.

Definition copyFile (sourcePath destPath : path) : M (option error) :=
  r <- os.Open sourcePath ;;
  match r with
  | inl err =>
      Printf (LogFailure "failed to open source file" (Some err)) ;;;
      err' <- deferredClose "failed to close source file" None (Some err) ;;
      ret (Some (Errorf "failed to open source file" err))
  | inr sourceFile =>
      r <- os.Create destPath ;;
      match r with
      | inl err =>
          Printf (LogFailure "failed to create destination file" (Some err)) ;;;
          err' <- deferredClose "failed to close destination file" None (Some err) ;;
          err' <- deferredClose "failed to close source file" (Some sourceFile) err' ;;
          ret (Some (Errorf "failed to create destination file" err))
      | inr destFile =>
          r <- io.Copy destFile sourceFile ;;
          match r with
          | inl cerr =>
              err <- deferredClose "failed to close destination file" (Some destFile) None ;;
              err <- deferredClose "failed to close source file" (Some sourceFile) err ;;
              ret (Some cerr)
          | inr _ =>
              r <- os.Stat sourcePath ;;
              match r with
              | inl err =>
                  Printf (LogFailure "failed to stat source file" (Some err)) ;;;
                  err' <- deferredClose "failed to close destination file" (Some destFile) (Some err) ;;
                  err' <- deferredClose "failed to close source file" (Some sourceFile) err' ;;
                  ret (Some (Errorf "failed to stat source file" err))
              | inr sourceInfo =>
                  res <- os.Chmod destPath (Mode sourceInfo) ;;
                  err <- deferredClose "failed to close destination file" (Some destFile) None ;;
                  err <- deferredClose "failed to close source file" (Some sourceFile) err ;;
                  ret res
              end
          end
      end
  end.

Definition moveFile (sourcePath destPath : path) : M (option error) :=
  let destDir := filepath.Dir destPath in
  err <- os.MkdirAll destDir perm755 ;;
  match err with
  | Some err =>
      Printf (LogFailure "failed to create destination directory" (Some err)) ;;;
      ret (Some (Errorf "failed to create destination directory" err))
  | None =>
      st <- os.Stat destPath ;;
      match st with
      | inr _ =>
          Printf (LogDestinationExists destPath) ;;;
          Printf (LogDestinationExists destPath) ;;;
          ret (Some (DestinationExists destPath))
      | inl _ =>
          err <- os.Rename sourcePath destPath ;;
          match err with
          | None => ret None
          | Some _ =>
              err <- copyFile sourcePath destPath ;;
              match err with
              | Some err =>
                  Printf (LogFailure "failed to copy file" (Some err)) ;;;
                  ret (Some (Errorf "failed to copy file" err))
              | None =>
                  err <- os.Remove sourcePath ;;
                  match err with
                  | Some err =>
                      Printf (LogFailure "failed to remove source file" (Some err)) ;;;
                      ret (Some (Errorf "failed to remove source file" err))
                  | None => ret None
                  end
              end
          end
      end
  end.

(** ** Batch organizer *)

(** Go's [int], 64 bits wide, two's complement. *)
Definition wrapInt (x : Z) : Z := (x + 2 ^ 63) mod 2 ^ 64 - 2 ^ 63.

(** [n++] *)
Definition incr (n : Z) : Z := wrapInt (n + 1).

Record Tally := { movedCount : Z; skippedCount : Z }.

(** The loop over [config.Destinations] for one file: the first rule that
    matches gets the one call of [moveFile], and [break] ends the loop.
    The boolean is the variable [moved]. *)
Fixpoint rangeDestinations (filename : string) (sourcePath : path)
    (dests : list Destination) (t : Tally) : M (Tally * bool) :=
  match dests with
  | [] => ret (t, false)
  | dest :: rest =>
      if matchesPattern filename dest then
        let destPath := filepath.Join (Path dest) filename in
        Printf (LogMoving sourcePath destPath) ;;;
        err <- moveFile sourcePath destPath ;;
        match err with
        | Some err =>
            Printf (LogErrorMoving filename err) ;;;
            ret ({| movedCount := movedCount t;
                    skippedCount := incr (skippedCount t) |}, false)
        | None =>
            Printf (LogSuccess filename) ;;;
            ret ({| movedCount := incr (movedCount t);
                    skippedCount := skippedCount t |}, true)
        end
      else rangeDestinations filename sourcePath rest t
  end.

(** The body of the loop over the directory entries. *)
Definition organizeEntry (config : Config) (file : DirEntry) (t : Tally)
  : M Tally :=
  if IsDir file then ret t
  else
    let filename := Name file in
    let sourcePath := filepath.Join (DumpDirectory config) filename in
    r <- rangeDestinations filename sourcePath (Destinations config) t ;;
    let (t', moved) := r : Tally * bool in
    if negb moved then
      Printf (LogNoMatch filename) ;;;
      ret {| movedCount := movedCount t';
             skippedCount := incr (skippedCount t') |}
    else ret t'.

Fixpoint rangeFiles (config : Config) (files : list DirEntry) (t : Tally)
  : M Tally :=
  match files with
  | [] => ret t
  | file :: rest =>
      t' <- organizeEntry config file t ;;
      rangeFiles config rest t'
  end.

Definition organizeFiles (config : Config) : M (option error) :=
  r <- os.ReadDir (DumpDirectory config) ;;
  match r with
  | inl err =>
      Printf (LogFailure "failed to read dump directory" (Some err)) ;;;
      ret (Some (Errorf "failed to read dump directory" err))
  | inr files =>
      t <- rangeFiles config files {| movedCount := 0; skippedCount := 0 |} ;;
      Printf (LogSummary (movedCount t) (skippedCount t)) ;;;
      ret None
  end.

(** ** Start-up *)

(** How [loadConfig] ends: it stops the process itself when the
    configuration file can neither be opened nor created, and otherwise
    returns an error or the configuration. *)
Inductive Loaded :=
| LoadExit
| LoadError (err : error)
| LoadConfig (config : Config).

(** What the surroundings answer while [main] starts: the log file, the
    configuration loader and the two calls into the notification library. *)
Record Startup := {
  openLogFile : option error;      (* os.OpenFile("app.log", ...) *)
  loadConfig : Loaded;             (* loadConfig() *)
  newWatcher : option error;       (* fsnotify.NewWatcher() *)
  watcherAdd : option error        (* watcher.Add(config.DumpDirectory) *)
}.

(** Where [main] ends up: the process has exited, or it waits for a signal
    with the watch loop running; [subscribed] tells whether the watcher
    delivers events of the dump directory. *)
Inductive Process :=
| Exited (status : Z)
| Serving (config : Config) (subscribed : bool).

(** [log.Fatal] and [log.Fatalf]: write the line, then [os.Exit(1)]. *)
Definition Fatal (what : string) (err : option error) : M Process :=
  Printf (LogFatal what err) ;;; ret (Exited 1).

(** [os.IsNotExist] on the result of [os.Stat]. *)
Definition IsNotExist {A} (r : error + A) : bool :=
  match r with
  | inl (PathError _ _ ENOENT) => true
  | _ => false
  end.

Definition isNil (err : option error) : bool :=
  match err with None => true | Some _ => false end.

Definition main (env : Startup) : M Process :=
  match openLogFile env with
  | Some err => Fatal "" (Some err)
  | None =>
      Printf (LogLine "This message is written to the log file.") ;;;
      match loadConfig env with
      | LoadExit => ret (Exited 1)
      | LoadError err => Fatal "Failed to load config" (Some err)
      | LoadConfig config =>
          st <- os.Stat (DumpDirectory config) ;;
          if IsNotExist st then Fatal "Dump directory does not exist" None
          else
            Printf (LogLine "Dump directory") ;;;
            Printf (LogLine "Processing destination rules") ;;;
            match newWatcher env with
            | Some err => Fatal "Failed to create watcher" (Some err)
            | None =>
                (* go func() { ... }(): the watch loop below *)
                let err := watcherAdd env in
                match err with
                | Some err => Printf (LogError err)
                | None => ret tt
                end ;;;
                Printf (LogLine "File organizer started. Press Ctrl+C to stop.") ;;;
                ret (Serving config (isNil err))
            end
      end
  end.

(** ** Debounced watch loop *)

(** Instants and durations are counted in nanoseconds, as [time.Duration]. *)
Definition Second : Z := 1000000000.
Definition debounceDelay : Z := 5 * Second.

Inductive TimerState := Armed | Fired | Stopped.

(** A [time.Timer] made by [time.AfterFunc]: when it is due and whether it
    is still to fire. *)
Record Timer := { due : Z; state : TimerState }.

(** The timers the runtime keeps, in the order [time.AfterFunc] made
    them; the package-level variable [timer], nil or pointing at one of
    them; and the instants at which a timer ran its function, that is
    started [organizeFiles]. *)
Record Loop := {
  timers : list Timer;
  timer : option nat;
  passes : list Z
}.

Definition idle : Loop := {| timers := []; timer := None; passes := [] |}.

Definition isDue (now : Z) (t : Timer) : bool :=
  match state t with
  | Armed => Z.leb (due t) now
  | _ => false
  end.

Definition fire (now : Z) (t : Timer) : Timer :=
  if isDue now t then {| due := due t; state := Fired |} else t.

(** The runtime's part: by the instant [now] every armed timer that was
    due has run its function. *)
Definition elapse (now : Z) (l : Loop) : Loop :=
  {| timers := fire now <$> timers l;
     timer := timer l;
     passes := (passes l ++ (due <$> filter (fun t => isDue now t = true) (timers l)))%list |}.

(** [t.Stop()]: only an armed timer is affected. *)
Definition Stop (t : Timer) : Timer :=
  match state t with
  | Armed => {| due := due t; state := Stopped |}
  | _ => t
  end.

(** [time.AfterFunc(d, f)] at the instant [now]. *)
Definition AfterFunc (now d : Z) : Timer := {| due := now + d; state := Armed |}.

(** What the loop receives: an event or an error, with the instant at
    which the loop takes it from the channel. *)
Inductive Received :=
| Event (now : Z)
| WatchError (now : Z).

(** One turn of the [select]. *)
Definition onReceive (r : Received) (l : Loop) : Loop :=
  match r with
  | Event now =>
      let l := elapse now l in
      (* if timer != nil { timer.Stop() } *)
      let ts :=
        match timer l with
        | Some i => alter Stop i (timers l)
        | None => timers l
        end in
      (* timer = time.AfterFunc(5*time.Second, ...) *)
      {| timers := (ts ++ [AfterFunc now debounceDelay])%list;
         timer := Some (length ts);
         passes := passes l |}
  | WatchError now => elapse now l
  end.

(** The end of [main]: the signal has come, and the timer the variable
    points at is stopped. *)
Definition onSignal (now : Z) (l : Loop) : Loop :=
  let l := elapse now l in
  {| timers :=
       match timer l with
       | Some i => alter Stop i (timers l)
       | None => timers l
       end;
     timer := timer l;
     passes := passes l |}.

Definition watchLoop (rs : list Received) (l : Loop) : Loop :=
  fold_left (fun l r => onReceive r l) rs l.

(** With nothing more received, whatever is armed fires when it is due. *)
Definition settle (l : Loop) : Loop :=
  {| timers := (fun t => fire (due t) t) <$> timers l;
     timer := timer l;
     passes := (passes l ++ (due <$> filter (fun t => isDue (due t) t = true) (timers l)))%list |}.

(** The organize passes a stream of events leads to. *)
Definition passesOf (instants : list Z) : list Z :=
  passes (settle (watchLoop (Event <$> instants) idle)).

(** Consecutive instants related by [R]. *)
Fixpoint spaced (R : Z -> Z -> Prop) (t : Z) (ts : list Z) : Prop :=
  match ts with
  | [] => True
  | t' :: ts' => R t t' /\ spaced R t' ts'
  end.

(** What debouncing comes to: the timer an event arms fires when the next
    event comes no sooner than a delay later, and that of the last event
    always does. *)
Fixpoint debounced (t : Z) (ts : list Z) : list Z :=
  match ts with
  | [] => [t + debounceDelay]
  | t' :: ts' =>
      if Z.leb (t + debounceDelay) t'
      then (t + debounceDelay) :: debounced t' ts'
      else debounced t' ts'
  end.

Definition isArmed (t : Timer) : bool :=
  match state t with Armed => true | _ => false end.

(** The loop after an event at [t]: the variable points at the timer made
    last, due a delay after [t], and no other timer is armed. *)
Definition armedAt (t : Z) (l : Loop) : Prop :=
  exists old,
    timers l = (old ++ [AfterFunc t debounceDelay])%list
    /\ timer l = Some (length old)
    /\ Forall (fun x => isArmed x = false) old.

(** ** Reading the log *)

Definition isSuccess (e : LogEntry) : bool :=
  match e with LogSuccess _ => true | _ => false end.

Definition isErrorMoving (e : LogEntry) : bool :=
  match e with LogErrorMoving _ _ => true | _ => false end.

Definition isNoMatch (e : LogEntry) : bool :=
  match e with LogNoMatch _ => true | _ => false end.

(** The lines that tell what became of a file. *)
Definition isOutcome (e : LogEntry) : bool :=
  isSuccess e || isErrorMoving e || isNoMatch e.

Definition countLog (p : LogEntry -> bool) (l : list LogEntry) : Z :=
  Z.of_nat (length (List.filter p l)).

(** [e] tells what became of the file [filename]. *)
Definition outcomeFor (filename : string) (e : LogEntry) : Prop :=
  e = LogSuccess filename
  \/ (exists err, e = LogErrorMoving filename err)
  \/ e = LogNoMatch filename.

(** The entries of a listing that are not directories. *)
Definition regularFiles (files : list DirEntry) : list DirEntry :=
  List.filter (fun file => negb (IsDir file)) files.

(** [organizeFiles] hands the counts of a pass to its caller: there is a
    way to read them off the value it returns. *)
Definition returnsTally : Prop :=
  exists outcome : option error -> Tally,
    forall config w files,
      fsys.ReadDir (fs w) (DumpDirectory config) = inr files ->
      outcome (organizeFiles config w).1
      = (rangeFiles config files {| movedCount := 0; skippedCount := 0 |} w).1.

(** A computation that writes none of the outcome lines. *)
Definition quiet {A} (m : M A) : Prop :=
  forall w, exists l,
    logged (m w).2 = (logged w ++ l)%list
    /\ Forall (fun e => isOutcome e = false) l.

(** Two paths neither of which lies on the way to the other. *)
Definition apart (p q : path) : Prop :=
  ~ p `prefix_of` q /\ ~ q `prefix_of` p.

(** ** A small tree to run the program on *)

Definition bytes (s : string) : list Byte.byte := String.list_byte_of_string s.

(** /dump holds a.txt, b.txt, c.bin and a directory; /dst holds an a.txt
    already; whatever lies under /mnt is on another volume. *)
Definition exampleFS : FS :=
  {| root :=
       {[ "dump" :=
            Directory 493
              (list_to_map
                 [ ("a.txt", File (bytes "alpha") 384);
                   ("b.txt", File (bytes "beta") 420);
                   ("c.bin", File (bytes "gamma") 384);
                   ("sub", Directory 493 {[ "x" := File [] 420 ]}) ]);
          "dst" := Directory 493 {[ "a.txt" := File (bytes "old") 420 ]} ]};
     device := fun p => match p with "mnt" :: _ => 1 | _ => 0 end;
     umask := 18 |}.

Definition exampleConfig : Config :=
  {| DumpDirectory := ["dump"];
     Destinations :=
       [ {| Path := ["dst"]; Prefix := "a"; Suffix := "" |};
         {| Path := ["mnt"; "text"]; Prefix := ""; Suffix := ".txt" |} ] |}.

Definition exampleWorld : World := {| fs := exampleFS; logged := [] |}.

(** What [os.ReadDir] finds in /dump. *)
Definition exampleListing : list DirEntry :=
  [ {| Name := "a.txt"; IsDir := false |};
    {| Name := "b.txt"; IsDir := false |};
    {| Name := "c.bin"; IsDir := false |};
    {| Name := "sub"; IsDir := true |} ].

(** A start-up in which everything works but the subscription: the
    notification library has no watch left to give. *)
Definition exampleStartup : Startup :=
  {| openLogFile := None;
     loadConfig := LoadConfig exampleConfig;
     newWatcher := None;
     watcherAdd := Some (PathError "inotify_add_watch" ["dump"] ENOSPC) |}.

(** ** Keeping a file *)

(** A computation that leaves the regular file at [q] as it is. *)
Definition keeps {A} (q : path) (data : list Byte.byte) (mode : Z) (m : M A)
  : Prop :=
  forall w,
    fsys.resolve (fs w) q = inr (File data mode) ->
    fsys.resolve (fs (m w).2) q = inr (File data mode).

(** The lines the two closures [copyFile] defers write when its [err] is
    nil at the end. *)
Definition closeLines : list LogEntry :=
  [ LogFailure "failed to close destination file" None;
    LogFailure "failed to close source file" None ].

(** ** Reading what the loop receives *)

Definition instantOf (r : Received) : Z :=
  match r with Event now => now | WatchError now => now end.

(** The instants of the events among what is received, errors left out. *)
Definition eventsOf (rs : list Received) : list Z :=
  omap (fun r => match r with Event now => Some now | WatchError _ => None end) rs.

(** A loop in which nothing is armed: every timer has fired or was
    stopped. *)
Definition spent (l : Loop) : Prop :=
  Forall (fun x => isArmed x = false) (timers l).

(** ** Configuration loader *)

(** [os.ReadFile]: the bytes of a regular file; a directory opens, and
    reading it fails. *)
Definition os_ReadFile (p : path) : M (error + list Byte.byte) :=
  r <- ask (fun σ => fsys.resolve σ p) ;;
  ret (match r with
       | inl e => inl (PathError "open" p e)
       | inr (File data _) => inr data
       | inr (Directory _ _) => inl (PathError "read" p EISDIR)
       end).

(** [errors.Is(err, os.ErrNotExist)]: looks through what [%w] wraps. *)
Fixpoint IsErrNotExist (err : error) : bool :=
  match err with
  | PathError _ _ ENOENT => true
  | PathError _ _ _ => false
  | Errorf _ cause => IsErrNotExist cause
  | DestinationExists _ => false
  end.

Module program.

Definition filename : string := ".prefix.yaml".

(** [loadConfig] from the line that follows the opening of the file: the
    file is read and parsed. [Unmarshal] is [yaml.Unmarshal] into a
    [Config]. The closures deferred before only close the files and store
    the result in a local variable. *)
Definition readAndParse (configFileName : path)
    (Unmarshal : list Byte.byte -> error + Config) : M Loaded :=
  Printf (LogLine "File exists and opened successfully") ;;;
  r <- os_ReadFile configFileName ;;
  match r with
  | inl err =>
      Printf (LogFailure "failed to read config file" (Some err)) ;;;
      ret (LoadError (Errorf "failed to read config file" err))
  | inr data =>
      match Unmarshal data with
      | inl err =>
          Printf (LogFailure "failed to parse YAML" (Some err)) ;;;
          ret (LoadError (Errorf "failed to parse YAML" err))
      | inr config => ret (LoadConfig config)
      end
  end.

(** [loadConfig]; [UserHomeDir] is what [os.UserHomeDir] answers. *)
Definition loadConfig (UserHomeDir : error + path)
    (Unmarshal : list Byte.byte -> error + Config) : M Loaded :=
  match UserHomeDir with
  | inl err =>
      Printf (LogFailure "could not get home directory" (Some err)) ;;;
      ret (LoadError err)
  | inr home =>
      let configFileName := filepath.Join home filename in
      r <- os.Open configFileName ;;
      match r with
      | inr _ => readAndParse configFileName Unmarshal
      | inl err =>
          if IsErrNotExist err then
            Printf (LogLine "File not found") ;;;
            Printf (LogLine "Creating a new config file, add the dump and destinations") ;;;
            c <- os.Create configFileName ;;
            match c with
            | inl err =>
                Printf (LogFatal "Error create new config file" (Some err)) ;;;
                ret LoadExit
            | inr _ => readAndParse configFileName Unmarshal
            end
          else
            Printf (LogFatal "Error opening file" (Some err)) ;;;
            ret LoadExit
      end
  end.

End program.

(** A stand-in for the parser on the example tree: no bytes give the zero
    [Config], as [yaml.Unmarshal] does; anything else is read as the
    example configuration. *)
Definition exampleUnmarshal (data : list Byte.byte) : error + Config :=
  match data with
  | [] => inr {| DumpDirectory := []; Destinations := [] |}
  | _ :: _ => inr exampleConfig
  end.

(** * Properties *)

(** ** Facts about Go strings *)

Section StringFacts.

Lemma nonempty_true s : nonempty s = true <-> s <> "".
Proof.
  unfold nonempty. rewrite negb_true_iff.
  destruct (String.eqb_spec s ""); split; congruence.
Qed.

Lemma nonempty_false s : nonempty s = false <-> s = "".
Proof.
  unfold nonempty. rewrite negb_false_iff. apply String.eqb_eq.
Qed.

Lemma length_append (a b : string) :
  String.length (a +:+ b) = (String.length a + String.length b)%nat.
Proof. induction a as [|c a IH]; simpl; [reflexivity | now rewrite IH]. Qed.

Lemma substring_whole (s : string) :
  String.substring 0 (String.length s) s = s.
Proof. induction s as [|c s IH]; simpl; [reflexivity | now rewrite IH]. Qed.

Lemma substring_head (p rest : string) :
  String.substring 0 (String.length p) (p +:+ rest) = p.
Proof.
  induction p as [|c p IH]; simpl.
  - destruct rest; reflexivity.
  - now rewrite IH.
Qed.

Lemma substring_tail (front s : string) :
  String.substring (String.length front) (String.length s) (front +:+ s) = s.
Proof.
  induction front as [|c front IH]; simpl.
  - apply substring_whole.
  - exact IH.
Qed.

(** Cutting a string at [n] and gluing the two pieces gives it back. *)
Lemma substring_split (s : string) (n : nat) :
  (n <= String.length s)%nat ->
  s = String.substring 0 n s
      +:+ String.substring n (String.length s - n) s.
Proof.
  revert n. induction s as [|c s IH]; intros n Hn; simpl in *.
  - destruct n; [reflexivity | lia].
  - destruct n as [|n]; simpl.
    + now rewrite substring_whole.
    + change (String c s = String c (String.substring 0 n s
               +:+ String.substring n (String.length s - n) s)).
      f_equal. apply IH. lia.
Qed.

Lemma HasPrefix_spec (s p : string) :
  strings.HasPrefix s p = true <-> starts_with s p.
Proof.
  unfold strings.HasPrefix, starts_with.
  rewrite andb_true_iff, Nat.leb_le, String.eqb_eq. split.
  - intros [Hlen Hsub].
    exists (String.substring (String.length p)
                             (String.length s - String.length p) s).
    rewrite <- Hsub at 1. now apply substring_split.
  - intros [rest ->]. rewrite length_append, substring_head. split; [lia | reflexivity].
Qed.

Lemma HasSuffix_spec (s x : string) :
  strings.HasSuffix s x = true <-> ends_with s x.
Proof.
  unfold strings.HasSuffix, ends_with.
  rewrite andb_true_iff, Nat.leb_le, String.eqb_eq. split.
  - intros [Hlen Hsub].
    exists (String.substring 0 (String.length s - String.length x) s).
    pose proof (substring_split s (String.length s - String.length x)) as Hcut.
    replace (String.length s - (String.length s - String.length x))%nat
      with (String.length x) in Hcut by lia.
    rewrite Hsub in Hcut. apply Hcut. lia.
  - intros [front ->]. rewrite length_append.
    replace (String.length front + String.length x - String.length x)%nat
      with (String.length front) by lia.
    rewrite substring_tail. split; [lia | reflexivity].
Qed.

End StringFacts.

(** ** The rule matcher *)

Section Matcher.

Lemma matchesPattern_empty_rule (filename : string) (dest : Destination) :
  Prefix dest = "" -> Suffix dest = "" -> matchesPattern filename dest = false.
Proof. intros Hp Hs. unfold matchesPattern. now rewrite Hp, Hs. Qed.

(** The four branches of [matchesPattern], read off as one equivalence. *)
Lemma matchesPattern_cases (filename : string) (dest : Destination) :
  matchesPattern filename dest = true <->
    (Prefix dest <> "" /\ Suffix dest <> ""
     /\ starts_with filename (Prefix dest)
     /\ ends_with filename (Suffix dest))
    \/ (Prefix dest <> "" /\ Suffix dest = ""
        /\ starts_with filename (Prefix dest))
    \/ (Prefix dest = "" /\ Suffix dest <> ""
        /\ ends_with filename (Suffix dest)).
Proof.
  unfold matchesPattern.
  destruct (nonempty (Prefix dest)) eqn:Hp, (nonempty (Suffix dest)) eqn:Hs;
    simpl;
    repeat match goal with
      | H : nonempty _ = true |- _ => apply nonempty_true in H
      | H : nonempty _ = false |- _ => apply nonempty_false in H
      end;
    rewrite ?andb_true_iff, ?HasPrefix_spec, ?HasSuffix_spec.
  - split; [intros [? ?]; left; auto | intros [(_ & _ & ? & ?) | [(_ & ? & _) | (? & _)]]];
      [split; assumption | contradiction | contradiction].
  - split; [intros ?; right; left; auto | intros [(_ & ? & _) | [(_ & _ & ?) | (? & _)]]];
      [contradiction | assumption | contradiction].
  - split; [intros ?; right; right; auto | intros [(? & _) | [(? & _) | (_ & _ & ?)]]];
      [contradiction | contradiction | assumption].
  - split; [discriminate | intros [(? & _) | [(? & _) | (_ & ? & _)]]; contradiction].
Qed.

(** C1: [matchesPattern] answers true exactly when the rule's non-empty
    conditions all hold: with prefix and suffix both set the filename
    starts with the one and ends with the other; with only the prefix set
    it starts with it; with only the suffix set it ends with it. No case
    is left for a rule with neither, which matches no filename. *)
Theorem matchesPattern_iff (filename : string) (dest : Destination) :
  (matchesPattern filename dest = true <->
     (Prefix dest <> "" /\ Suffix dest <> ""
      /\ starts_with filename (Prefix dest)
      /\ ends_with filename (Suffix dest))
     \/ (Prefix dest <> "" /\ Suffix dest = ""
         /\ starts_with filename (Prefix dest))
     \/ (Prefix dest = "" /\ Suffix dest <> ""
         /\ ends_with filename (Suffix dest)))
  /\ matchesPattern filename
       {| Path := Path dest; Prefix := ""; Suffix := "" |} = false.
Proof.
  split; [apply matchesPattern_cases | reflexivity].
Qed.

(** C10: with prefix and suffix both set, a filename that starts with the
    prefix and ends with the suffix matches; nothing asks the two regions
    to be disjoint, so a filename shorter than prefix and suffix together
    can match. *)
Theorem matchesPattern_overlap (filename : string) (dest : Destination) :
  Prefix dest <> "" -> Suffix dest <> "" ->
  starts_with filename (Prefix dest) ->
  ends_with filename (Suffix dest) ->
  matchesPattern filename dest = true.
Proof.
  intros Hp Hs Hstart Hend.
  apply matchesPattern_cases. left. auto.
Qed.

Lemma matchesPattern_overlap_aba :
  matchesPattern "aba" {| Path := []; Prefix := "ab"; Suffix := "ba" |} = true
  /\ (String.length "aba" < String.length "ab" + String.length "ba")%nat.
Proof.
  split.
  - apply matchesPattern_overlap; simpl.
    + discriminate.
    + discriminate.
    + exists "a". reflexivity.
    + exists "a". reflexivity.
  - simpl. lia.
Defined.

End Matcher.

(** ** Path resolution *)

Section Resolution.

Lemma walk_removelast (n : node) (p : path) (n' : node) :
  fsys.walk n p = inr n' -> p <> [] ->
  exists m es, fsys.walk n (removelast p) = inr (Directory m es).
Proof.
  revert n. induction p as [|c rest IH]; intros n Hwalk Hne; [congruence|].
  destruct n as [data mode | mode es]; simpl in Hwalk; [discriminate|].
  destruct (es !! c) as [n1|] eqn:Hc; [|discriminate].
  destruct rest as [|c' rest'].
  - simpl. eauto.
  - change (removelast (c :: c' :: rest')) with (c :: removelast (c' :: rest')).
    simpl fsys.walk at 1. rewrite Hc. apply IH; [assumption | discriminate].
Qed.

(** Whatever resolves lies in a directory. *)
Lemma resolve_Dir (σ : FS) (p : path) (n : node) :
  fsys.resolve σ p = inr n ->
  exists m es, fsys.resolve σ (filepath.Dir p) = inr (Directory m es).
Proof.
  intros Hres. destruct p as [|c rest].
  - simpl. unfold fsys.resolve, fsys.rootNode. simpl. eauto.
  - eapply walk_removelast; [exact Hres | discriminate].
Qed.

Lemma Stat_resolve (σ : FS) (p : path) (n : node) :
  fsys.resolve σ p = inr n -> fsys.Stat σ p = inr (infoOf n).
Proof. intros H. unfold fsys.Stat. now rewrite H. Qed.

Lemma Stat_inr (σ : FS) (p : path) (i : FileInfo) :
  fsys.Stat σ p = inr i -> exists n, fsys.resolve σ p = inr n /\ i = infoOf n.
Proof.
  unfold fsys.Stat. destruct (fsys.resolve σ p) as [e|n]; [discriminate|].
  intros [= <-]. eauto.
Qed.

Lemma Stat_inl (σ : FS) (p : path) (e : errno) :
  fsys.Stat σ p = inl e -> fsys.resolve σ p = inl e.
Proof.
  unfold fsys.Stat. destruct (fsys.resolve σ p) as [e'|n]; [|discriminate].
  now intros [= <-].
Qed.

(** [MkdirAll] of a directory that is there changes nothing. *)
Lemma MkdirAll_existing (σ : FS) (p : path) (perm m : Z) es :
  fsys.resolve σ p = inr (Directory m es) ->
  fsys.MkdirAll σ p perm = (σ, None).
Proof.
  intros Hres. unfold fsys.MkdirAll.
  assert (Hstat : fsys.Stat σ (rev (rev p)) = inr (infoOf (Directory m es))).
  { rewrite rev_involutive. now apply Stat_resolve. }
  destruct (rev p); cbn [fsys.MkdirAll_up]; now rewrite Hstat.
Qed.

Lemma walk_app (n : node) (a b : path) :
  fsys.walk n (a ++ b)%list =
    match fsys.walk n a with
    | inr n' => fsys.walk n' b
    | inl e => inl e
    end.
Proof.
  revert n. induction a as [|c a IH]; intros n; [reflexivity|].
  destruct n as [data mode | mode es]; simpl; [reflexivity|].
  destruct (es !! c); [apply IH | reflexivity].
Qed.

(** Resolution passes through directories only. *)
Lemma walk_through (n : node) (a : path) (c : string) (b : path) (n' : node) :
  fsys.walk n (a ++ c :: b)%list = inr n' ->
  exists m es, fsys.walk n a = inr (Directory m es).
Proof.
  rewrite walk_app.
  destruct (fsys.walk n a) as [e | [data mode | m es]]; simpl; try discriminate.
  eauto.
Qed.

Lemma resolve_through (σ : FS) (p q : path) (n : node) :
  fsys.resolve σ q = inr n -> p `prefix_of` q -> p <> q ->
  exists m es, fsys.resolve σ p = inr (Directory m es).
Proof.
  intros Hq [k ->] Hne. destruct k as [|c k].
  - rewrite app_nil_r in Hne. congruence.
  - eapply walk_through. exact Hq.
Qed.

(** Changing the entry at [p] is seen at [p]. *)
Lemma modify_walk_same (o : option node) (p : path) :
  forall (m : Z) (es : gmap string node) (m' : Z) (es' : gmap string node),
  p <> [] ->
  fsys.walk (Directory m es) (removelast p) = inr (Directory m' es') ->
  fsys.walk (Directory m (fsys.modify (fun _ => o) es p)) p =
    match o with Some n => inr n | None => inl ENOENT end.
Proof.
  induction p as [|c rest IH]; intros m es m' es' Hne Hdir; [congruence|].
  destruct rest as [|c' rest'].
  - simpl. rewrite lookup_partial_alter_eq. destruct o; reflexivity.
  - change (removelast (c :: c' :: rest')) with (c :: removelast (c' :: rest')) in Hdir.
    cbn [fsys.walk] in Hdir.
    destruct (es !! c) as [n1|] eqn:Hc; [|discriminate].
    assert (exists m1 sub, n1 = Directory m1 sub) as (m1 & sub & ->).
    { destruct n1 as [data mode | m1 sub]; [| eauto].
      destruct (removelast (c' :: rest')); cbn [fsys.walk] in Hdir; discriminate. }
    cbn [fsys.modify]. rewrite Hc.
    cbn [fsys.walk]. rewrite lookup_insert_eq.
    eapply IH; [discriminate | exact Hdir].
Qed.

(** ... and nowhere apart from [p]. *)
Lemma modify_walk_apart (f : option node -> option node) (p : path) :
  forall (q : path) (m : Z) (es : gmap string node),
  apart p q ->
  fsys.walk (Directory m (fsys.modify f es p)) q = fsys.walk (Directory m es) q.
Proof.
  induction p as [|c rest IH]; intros q m es [Hpq Hqp].
  - exfalso. apply Hpq. apply prefix_nil.
  - destruct q as [|d q']; [exfalso; apply Hqp; apply prefix_nil|].
    destruct (decide (c = d)) as [<- | Hcd].
    + assert (Hrest : apart rest q').
      { split; intros Hpre; [apply Hpq | apply Hqp]; now apply prefix_cons. }
      destruct rest as [|c' rest'].
      { exfalso. apply (proj1 Hrest). apply prefix_nil. }
      cbn [fsys.modify].
      destruct (es !! c) as [[data mode | m1 sub]|] eqn:Hc; try reflexivity.
      cbn [fsys.walk]. rewrite lookup_insert_eq, Hc.
      apply IH. exact Hrest.
    + assert (Hlook : fsys.modify f es (c :: rest) !! d = es !! d).
      { destruct rest as [|c' rest']; cbn [fsys.modify].
        - now rewrite lookup_partial_alter_ne.
        - destruct (es !! c) as [[data mode | m1 sub]|]; try reflexivity.
          now rewrite lookup_insert_ne. }
      cbn [fsys.walk]. now rewrite Hlook.
Qed.

Lemma put_resolve_same (σ : FS) (p : path) (n : node) (m : Z) es :
  p <> [] ->
  fsys.resolve σ (filepath.Dir p) = inr (Directory m es) ->
  fsys.resolve (fsys.put σ p n) p = inr n.
Proof.
  intros Hne Hdir. unfold fsys.resolve, fsys.rootNode, fsys.put. simpl.
  exact (modify_walk_same (Some n) p _ _ _ _ Hne Hdir).
Qed.

Lemma put_resolve_apart (σ : FS) (p q : path) (n : node) :
  apart p q -> fsys.resolve (fsys.put σ p n) q = fsys.resolve σ q.
Proof.
  intros Hpq. unfold fsys.resolve, fsys.rootNode, fsys.put. simpl.
  now apply modify_walk_apart.
Qed.

Lemma unlink_resolve_same (σ : FS) (p : path) (m : Z) es :
  p <> [] ->
  fsys.resolve σ (filepath.Dir p) = inr (Directory m es) ->
  fsys.resolve (fsys.unlink σ p) p = inl ENOENT.
Proof.
  intros Hne Hdir. unfold fsys.resolve, fsys.rootNode, fsys.unlink. simpl.
  exact (modify_walk_same None p _ _ _ _ Hne Hdir).
Qed.

Lemma unlink_resolve_apart (σ : FS) (p q : path) :
  apart p q -> fsys.resolve (fsys.unlink σ p) q = fsys.resolve σ q.
Proof.
  intros Hpq. unfold fsys.resolve, fsys.rootNode, fsys.unlink. simpl.
  now apply modify_walk_apart.
Qed.

(** A file that is there and a path that is not lie apart. *)
Lemma file_apart_missing (σ : FS) (src dst : path) data mode e :
  fsys.resolve σ src = inr (File data mode) ->
  fsys.resolve σ dst = inl e ->
  (exists m es, fsys.resolve σ (filepath.Dir dst) = inr (Directory m es)) ->
  apart src dst.
Proof.
  intros Hsrc Hdst (m & es & Hdir). split; intros Hpre.
  - destruct (decide (src = dst)) as [-> | Hne]; [congruence|].
    assert (Hpd : src `prefix_of` filepath.Dir dst).
    { destruct Hpre as [k Hk]. destruct (exists_last (l := k)) as (k' & c & ->).
      - intros ->. rewrite app_nil_r in Hk. congruence.
      - exists k'. subst dst. unfold filepath.Dir.
        now rewrite app_assoc, removelast_last. }
    destruct (decide (src = filepath.Dir dst)) as [Heq | Hne'].
    + rewrite <- Heq in Hdir. congruence.
    + destruct (resolve_through σ src _ _ Hdir Hpd Hne') as (m1 & es1 & Habs).
      congruence.
  - destruct (decide (dst = src)) as [-> | Hne]; [congruence|].
    destruct (resolve_through σ dst _ _ Hsrc Hpre Hne) as (m1 & es1 & Habs).
    congruence.
Qed.

(** Making a directory neither makes nor changes a file. *)
Lemma Mkdir_keeps_files (σ : FS) (p : path) (perm : Z) (σ' : FS)
    (r : option errno) (q : path) data mode :
  fsys.Mkdir σ p perm = (σ', r) ->
  fsys.resolve σ' q = inr (File data mode) ->
  fsys.resolve σ q = inr (File data mode).
Proof.
  unfold fsys.Mkdir.
  destruct (fsys.resolve σ p) as [e|n] eqn:Hp; [| now intros [= <- _]].
  destruct p as [|c rest]; [now intros [= <- _]|].
  destruct (fsys.resolve σ (filepath.Dir (c :: rest)))
    as [e' | [d' m' | m' es']] eqn:Hdir; try (now intros [= <- _]).
  intros [= <- _] Hq.
  assert (Hnew : fsys.resolve
                   (fsys.put σ (c :: rest) (Directory (Z.ldiff perm (umask σ)) ∅))
                   (c :: rest)
                 = inr (Directory (Z.ldiff perm (umask σ)) ∅)).
  { eapply put_resolve_same; [discriminate | exact Hdir]. }
  destruct (decide ((c :: rest) `prefix_of` q)) as [[k ->] | Hpq].
  - exfalso. unfold fsys.resolve in Hq, Hnew. rewrite walk_app, Hnew in Hq.
    destruct k; simpl in Hq; [discriminate|].
    rewrite lookup_empty in Hq. discriminate.
  - destruct (decide (q `prefix_of` (c :: rest))) as [Hqp | Hqp].
    + exfalso.
      assert (Hne : q <> c :: rest) by (intros ->; now apply Hpq).
      destruct (resolve_through _ _ _ _ Hnew Hqp Hne) as (m1 & es1 & Habs).
      congruence.
    + rewrite <- Hq. symmetry. apply put_resolve_apart. now split.
Qed.

Lemma MkdirAll_keeps_files (σ : FS) (p : path) (perm : Z) (σ' : FS)
    (r : option errno) (q : path) data mode :
  fsys.MkdirAll σ p perm = (σ', r) ->
  fsys.resolve σ' q = inr (File data mode) ->
  fsys.resolve σ q = inr (File data mode).
Proof.
  unfold fsys.MkdirAll. generalize (rev p) as rp. clear p.
  intros rp. revert σ' r.
  induction rp as [|c parent IH]; intros σ' r; cbn [fsys.MkdirAll_up].
  - destruct (fsys.Stat σ (rev [])); now intros [= <- _].
  - destruct (fsys.Stat σ (rev (c :: parent))); [| now intros [= <- _]].
    destruct (fsys.MkdirAll_up σ parent perm) as [σa [ea|]] eqn:Hup.
    + intros [= <- _]. eapply IH. reflexivity.
    + destruct (fsys.Mkdir σa (rev (c :: parent)) perm) as [σb r'] eqn:Hmk.
      intros Hres Hq.
      assert (σ' = σb) as ->.
      { destruct r'; [destruct (fsys.Stat σb (rev (c :: parent)))|];
          now injection Hres. }
      eapply IH; [reflexivity|].
      eapply Mkdir_keeps_files; eassumption.
Qed.

(** A rename that is refused leaves the tree alone. *)
Lemma Rename_refused (σ : FS) (src dst : path) (σ' : FS) (e : errno) :
  fsys.Rename σ src dst = (σ', Some e) -> σ' = σ.
Proof.
  unfold fsys.Rename.
  repeat match goal with
    | |- context [match ?x with _ => _ end] => destruct x
    end; now intros [= <-].
Qed.

Lemma Mkdir_ok_dir (σ : FS) (p : path) (perm : Z) (σ' : FS) :
  fsys.Mkdir σ p perm = (σ', None) ->
  exists m es, fsys.resolve σ' p = inr (Directory m es).
Proof.
  unfold fsys.Mkdir.
  destruct (fsys.resolve σ p) as [e|n]; [| discriminate].
  destruct p as [|c rest]; [discriminate|].
  destruct (fsys.resolve σ (filepath.Dir (c :: rest)))
    as [e' | [d' m' | m' es']] eqn:Hdir; try discriminate.
  intros [= <-]. eexists _, _.
  eapply put_resolve_same; [discriminate | exact Hdir].
Qed.

Lemma MkdirAll_up_ok_dir (σ : FS) (rp : list string) (perm : Z) (σ' : FS) :
  fsys.MkdirAll_up σ rp perm = (σ', None) ->
  exists m es, fsys.resolve σ' (rev rp) = inr (Directory m es).
Proof.
  assert (Hdir : forall σ0 q (i : FileInfo),
             fsys.Stat σ0 q = inr i -> ModeIsDir i = true ->
             exists m es, fsys.resolve σ0 q = inr (Directory m es)).
  { intros σ0 q i Hst Hi. apply Stat_inr in Hst as (n & Hn & ->).
    destruct n; [discriminate | eauto]. }
  destruct rp as [|c parent]; cbn [fsys.MkdirAll_up].
  - destruct (fsys.Stat σ (rev [])) as [e|i] eqn:Hst; [discriminate|].
    destruct (ModeIsDir i) eqn:Hi; [| discriminate].
    intros [= <-]. eapply Hdir; eassumption.
  - destruct (fsys.Stat σ (rev (c :: parent))) as [e|i] eqn:Hst.
    + destruct (fsys.MkdirAll_up σ parent perm) as [σa [ea|]]; [discriminate|].
      destruct (fsys.Mkdir σa (rev (c :: parent)) perm) as [σb [eb|]] eqn:Hmk.
      * destruct (fsys.Stat σb (rev (c :: parent))) as [e'|i] eqn:Hst';
          [discriminate|].
        destruct (ModeIsDir i) eqn:Hi; [| discriminate].
        intros [= <-]. eapply Hdir; eassumption.
      * intros [= <-]. eapply Mkdir_ok_dir. exact Hmk.
    + destruct (ModeIsDir i) eqn:Hi; [| discriminate].
      intros [= <-]. eapply Hdir; eassumption.
Qed.

(** After a [MkdirAll] that succeeds the directory is there. *)
Lemma MkdirAll_ok_dir (σ : FS) (p : path) (perm : Z) (σ' : FS) :
  fsys.MkdirAll σ p perm = (σ', None) ->
  exists m es, fsys.resolve σ' p = inr (Directory m es).
Proof.
  unfold fsys.MkdirAll. intros H.
  apply MkdirAll_up_ok_dir in H. now rewrite rev_involutive in H.
Qed.

End Resolution.

(** ** The relocator *)

Section Relocator.

(** C3: when something is there at [destPath], [moveFile] gives up with
    the "destination file already exists" error; the file system is left
    as it was, source and destination included, and the log gets the line
    twice. *)
Theorem moveFile_destination_exists (sourcePath destPath : path) (w : World)
    (n : node) :
  fsys.resolve (fs w) destPath = inr n ->
  moveFile sourcePath destPath w =
    (Some (DestinationExists destPath),
     {| fs := fs w;
        logged := (logged w ++ [LogDestinationExists destPath;
                                LogDestinationExists destPath])%list |}).
Proof.
  intros Hdst.
  destruct (resolve_Dir _ _ _ Hdst) as (m & es & Hdir).
  unfold moveFile, os.MkdirAll, os.Stat, bind, sys, ask, ret, Printf.
  cbn beta.
  rewrite (MkdirAll_existing _ _ perm755 _ _ Hdir). cbn [opErr fs logged].
  rewrite (Stat_resolve _ _ _ Hdst). cbn [opRes fs logged].
  now rewrite <- app_assoc.
Qed.

Lemma moveFile_destination_exists_example :
  moveFile ["dump"; "a.txt"] ["dst"; "a.txt"] exampleWorld =
    (Some (DestinationExists ["dst"; "a.txt"]),
     {| fs := exampleFS;
        logged := [LogDestinationExists ["dst"; "a.txt"];
                   LogDestinationExists ["dst"; "a.txt"]] |}).
Proof.
  apply (moveFile_destination_exists _ _ exampleWorld (File (bytes "old") 420)).
  vm_compute. reflexivity.
Defined.

(** Putting a file in place neither makes nor changes another file. *)
Lemma put_file_keeps_files (σ : FS) (p : path) d0 m0 (q : path) data mode m es :
  p <> [] ->
  fsys.resolve σ (filepath.Dir p) = inr (Directory m es) ->
  q <> p ->
  fsys.resolve (fsys.put σ p (File d0 m0)) q = inr (File data mode) ->
  fsys.resolve σ q = inr (File data mode).
Proof.
  intros Hne Hdir Hqp Hq.
  assert (Hnew : fsys.resolve (fsys.put σ p (File d0 m0)) p = inr (File d0 m0)).
  { eapply put_resolve_same; eassumption. }
  destruct (decide (p `prefix_of` q)) as [[k ->] | Hpq].
  - exfalso. unfold fsys.resolve in Hq, Hnew. rewrite walk_app, Hnew in Hq.
    destruct k; simpl in Hq; [| discriminate].
    rewrite app_nil_r in Hqp. congruence.
  - destruct (decide (q `prefix_of` p)) as [Hqp' | Hqp'].
    + exfalso.
      destruct (resolve_through _ _ _ _ Hnew Hqp' Hqp) as (m1 & es1 & Habs).
      congruence.
    + rewrite <- Hq. symmetry. apply put_resolve_apart. now split.
Qed.

Lemma Create_fresh (σ : FS) (dst : path) (e0 : errno) (σ' : FS) (h : path) :
  fsys.resolve σ dst = inl e0 ->
  fsys.Create σ dst = (σ', inr h) ->
  h = dst /\ dst <> []
  /\ (exists m es, fsys.resolve σ (filepath.Dir dst) = inr (Directory m es))
  /\ σ' = fsys.put σ dst (File [] (Z.ldiff perm666 (umask σ))).
Proof.
  intros Hdst. unfold fsys.Create. rewrite Hdst.
  destruct dst as [|c rest]; [discriminate|].
  destruct (fsys.resolve σ (filepath.Dir (c :: rest)))
    as [e | [d m | m es]]; try discriminate.
  intros [= <- <-]. repeat split; eauto.
Qed.

Lemma Copy_inr (σ : FS) (dst src : path) (σ' : FS) (k : Z) :
  fsys.Copy σ dst src = (σ', inr k) ->
  exists data mode old m0,
    fsys.resolve σ src = inr (File data mode)
    /\ fsys.resolve σ dst = inr (File old m0)
    /\ σ' = fsys.put σ dst (File data m0).
Proof.
  unfold fsys.Copy.
  destruct (fsys.resolve σ src) as [e | [data mode | m es]]; try discriminate.
  destruct (fsys.resolve σ dst) as [e | [old m0 | m es]]; try discriminate.
  intros [= <- _]. eauto 10.
Qed.

Lemma Chmod_file (σ : FS) (p : path) (mode : Z) data m0 :
  fsys.resolve σ p = inr (File data m0) ->
  fsys.Chmod σ p mode = (fsys.put σ p (File data (Z.land mode permMask)), None).
Proof. intros H. unfold fsys.Chmod. now rewrite H. Qed.

Lemma Remove_file (σ : FS) (p : path) data m0 :
  fsys.resolve σ p = inr (File data m0) ->
  fsys.Remove σ p = (fsys.unlink σ p, None).
Proof. intros H. unfold fsys.Remove. now rewrite H. Qed.

(** [copyFile] onto a name that is free: open, create, copy, stat, chmod. *)
Lemma copyFile_fresh (src dst : path) (w w' : World) e0 :
  fsys.resolve (fs w) dst = inl e0 ->
  copyFile src dst w = (None, w') ->
  exists data mode,
    fsys.resolve (fs w) src = inr (File data mode)
    /\ fsys.resolve (fs w') dst = inr (File data (Z.land mode permMask))
    /\ fsys.resolve (fs w') src = inr (File data mode)
    /\ apart src dst.
Proof.
  intros Hdst.
  unfold copyFile, deferredClose, os.Open, os.Create, io.Copy, os.Stat, os.Chmod,
    os.Close, bind, sys, ask, ret, Printf. cbn beta.
  destruct (fsys.Open (fs w) src) as [eo | h] eqn:HO; cbn [opRes]; [discriminate|].
  assert (h = src) as ->.
  { unfold fsys.Open in HO. destruct (fsys.resolve (fs w) src); congruence. }
  destruct (fsys.Create (fs w) dst) as [σ2 [ec | h]] eqn:HC; cbn [opRes fs logged];
    [discriminate|].
  destruct (Create_fresh _ _ _ _ _ Hdst HC) as (-> & Hne & (md & esd & Hdir) & ->).
  set (σ2 := fsys.put (fs w) dst (File [] (Z.ldiff perm666 (umask (fs w))))) in *.
  destruct (fsys.Copy σ2 dst src) as [σ3 [ecp | k]] eqn:HCp; cbn [opRes fs logged];
    [discriminate|].
  destruct (Copy_inr _ _ _ _ _ HCp) as (data & mode & old & m0 & Hsrc2 & Hdst2 & ->).
  set (σ3 := fsys.put σ2 dst (File data m0)) in *.
  assert (Hsd : src <> dst).
  { intros ->. unfold fsys.Open in HO. rewrite Hdst in HO. discriminate. }
  assert (Hsrc : fsys.resolve (fs w) src = inr (File data mode)).
  { eapply put_file_keeps_files; [exact Hne | exact Hdir | exact Hsd | exact Hsrc2]. }
  assert (Hapart : apart src dst).
  { eapply file_apart_missing; eauto. }
  assert (Hapart' : apart dst src) by (destruct Hapart; now split).
  destruct (resolve_Dir _ _ _ Hdst2) as (md2 & esd2 & Hdir2).
  assert (Hdst3 : fsys.resolve σ3 dst = inr (File data m0)).
  { eapply put_resolve_same; eassumption. }
  assert (Hsrc3 : fsys.resolve σ3 src = inr (File data mode)).
  { unfold σ3. rewrite put_resolve_apart by assumption. exact Hsrc2. }
  rewrite (Stat_resolve _ _ _ Hsrc3). cbn [opRes infoOf Mode fs logged].
  rewrite (Chmod_file _ _ mode _ _ Hdst3). cbn [opErr fs logged].
  intros [= <-]. cbn [fs].
  destruct (resolve_Dir _ _ _ Hdst3) as (md3 & esd3 & Hdir3).
  exists data, mode. repeat split; try assumption; try apply Hapart.
  - eapply put_resolve_same; eassumption.
  - rewrite put_resolve_apart by assumption. exact Hsrc3.
Qed.

(** ... and it succeeds when the source is a regular file and the
    destination's directory is there. *)
Lemma copyFile_fresh_succeeds (src dst : path) (w : World) e0 data mode m es :
  fsys.resolve (fs w) dst = inl e0 ->
  fsys.resolve (fs w) (filepath.Dir dst) = inr (Directory m es) ->
  fsys.resolve (fs w) src = inr (File data mode) ->
  exists w', copyFile src dst w = (None, w').
Proof.
  intros Hdst Hdir Hsrc.
  assert (Hne : dst <> []).
  { intros ->. unfold fsys.resolve in Hdst. simpl in Hdst. discriminate. }
  assert (Hapart : apart src dst) by (eapply file_apart_missing; eauto).
  assert (Hapart' : apart dst src) by (destruct Hapart; now split).
  unfold copyFile, deferredClose, os.Open, os.Create, io.Copy, os.Stat, os.Chmod,
    os.Close, bind, sys, ask, ret, Printf. cbn beta.
  unfold fsys.Open. rewrite Hsrc. cbn [opRes].
  unfold fsys.Create. rewrite Hdst.
  destruct dst as [|c rest]; [congruence|]. rewrite Hdir. cbn [opRes fs logged].
  set (σ2 := fsys.put (fs w) (c :: rest) (File [] (Z.ldiff perm666 (umask (fs w))))).
  assert (Hdst2 : fsys.resolve σ2 (c :: rest)
                  = inr (File [] (Z.ldiff perm666 (umask (fs w))))).
  { eapply put_resolve_same; eassumption. }
  assert (Hsrc2 : fsys.resolve σ2 src = inr (File data mode)).
  { unfold σ2. now rewrite put_resolve_apart. }
  unfold fsys.Copy. rewrite Hsrc2, Hdst2. cbn [opRes fs logged].
  set (σ3 := fsys.put σ2 (c :: rest) (File data (Z.ldiff perm666 (umask (fs w))))).
  destruct (resolve_Dir _ _ _ Hdst2) as (md2 & esd2 & Hdir2).
  assert (Hdst3 : fsys.resolve σ3 (c :: rest)
                  = inr (File data (Z.ldiff perm666 (umask (fs w))))).
  { eapply put_resolve_same; eassumption. }
  assert (Hsrc3 : fsys.resolve σ3 src = inr (File data mode)).
  { unfold σ3. now rewrite put_resolve_apart. }
  rewrite (Stat_resolve _ _ _ Hsrc3). cbn [opRes infoOf Mode fs logged].
  rewrite (Chmod_file _ _ mode _ _ Hdst3). cbn [opErr fs logged].
  eauto.
Qed.

Lemma bind_run {A B} (m : M A) (k : A -> M B) (w : World) :
  bind m k w = let (a, w') := m w in k a w'.
Proof. reflexivity. Qed.

Lemma MkdirAll_run (p : path) (perm : Z) (w : World) (σ : FS) (r : option errno) :
  fsys.MkdirAll (fs w) p perm = (σ, r) ->
  os.MkdirAll p perm w = (opErr "mkdir" p r, {| fs := σ; logged := logged w |}).
Proof. intros H. unfold os.MkdirAll, bind, sys, ret. now rewrite H. Qed.

Lemma Stat_run (p : path) (w : World) :
  os.Stat p w = (opRes "stat" p (fsys.Stat (fs w) p), w).
Proof. reflexivity. Qed.

Lemma Rename_run (src dst : path) (w : World) (σ : FS) (r : option errno) :
  fsys.Rename (fs w) src dst = (σ, r) ->
  os.Rename src dst w = (opErr "rename" src r, {| fs := σ; logged := logged w |}).
Proof. intros H. unfold os.Rename, bind, sys, ret. now rewrite H. Qed.

(** The rest of [moveFile] once the rename has failed. *)
Lemma moveFile_after_rename (sourcePath destPath : path) (w : World)
    (σ1 : FS) (e0 e : errno) :
  fsys.MkdirAll (fs w) (filepath.Dir destPath) perm755 = (σ1, None) ->
  fsys.Stat σ1 destPath = inl e0 ->
  (fsys.Rename σ1 sourcePath destPath).2 = Some e ->
  moveFile sourcePath destPath w =
    (err <- copyFile sourcePath destPath ;;
     match err with
     | Some err =>
         Printf (LogFailure "failed to copy file" (Some err)) ;;;
         ret (Some (Errorf "failed to copy file" err))
     | None =>
         err <- os.Remove sourcePath ;;
         match err with
         | Some err =>
             Printf (LogFailure "failed to remove source file" (Some err)) ;;;
             ret (Some (Errorf "failed to remove source file" err))
         | None => ret None
         end
     end) {| fs := σ1; logged := logged w |}.
Proof.
  intros HM HS Hren.
  destruct (fsys.Rename σ1 sourcePath destPath) as [σr [er|]] eqn:HR;
    cbn [snd] in Hren; [| discriminate Hren].
  pose proof (Rename_refused _ _ _ _ _ HR) as ->.
  unfold moveFile.
  rewrite bind_run, (MkdirAll_run _ _ _ _ _ HM). cbn [opErr].
  rewrite bind_run, Stat_run. cbn [fs]. rewrite HS. cbn [opRes].
  rewrite bind_run, (Rename_run _ _ {| fs := σ1; logged := logged w |} _ _ HR).
  reflexivity.
Qed.

(** C4: when the rename is refused, [moveFile] goes on with [copyFile] and
    [os.Remove]. When that succeeds the destination holds the bytes the
    source had when [moveFile] was called, with the source's permission
    bits, and the source is gone; and it does succeed for a source that is
    a regular file. *)
Theorem moveFile_fallback (sourcePath destPath : path) (w : World)
    (σ1 : FS) (e0 e : errno) :
  fsys.MkdirAll (fs w) (filepath.Dir destPath) perm755 = (σ1, None) ->
  fsys.Stat σ1 destPath = inl e0 ->
  (fsys.Rename σ1 sourcePath destPath).2 = Some e ->
  moveFile sourcePath destPath w =
    (err <- copyFile sourcePath destPath ;;
     match err with
     | Some err =>
         Printf (LogFailure "failed to copy file" (Some err)) ;;;
         ret (Some (Errorf "failed to copy file" err))
     | None =>
         err <- os.Remove sourcePath ;;
         match err with
         | Some err =>
             Printf (LogFailure "failed to remove source file" (Some err)) ;;;
             ret (Some (Errorf "failed to remove source file" err))
         | None => ret None
         end
     end) {| fs := σ1; logged := logged w |}
  /\ (forall w',
      moveFile sourcePath destPath w = (None, w') ->
      exists data mode mode',
        fsys.resolve (fs w) sourcePath = inr (File data mode)
        /\ fsys.resolve (fs w') destPath = inr (File data mode')
        /\ Z.land mode' permMask = Z.land mode permMask
        /\ fsys.resolve (fs w') sourcePath = inl ENOENT)
  /\ (forall data mode,
      fsys.resolve σ1 sourcePath = inr (File data mode) ->
      exists w', moveFile sourcePath destPath w = (None, w')).
Proof.
  intros HM HS Hren.
  pose proof (moveFile_after_rename _ _ _ _ _ _ HM HS Hren) as Hrest.
  split; [exact Hrest|].
  rewrite Hrest. clear Hrest.
  apply Stat_inl in HS.
  set (w1 := {| fs := σ1; logged := logged w |}).
  split; cycle 1.
  { intros data mode Hsrc.
    destruct (MkdirAll_ok_dir _ _ _ _ HM) as (md & esd & Hdir).
    destruct (copyFile_fresh_succeeds sourcePath destPath w1 e0 data mode md esd
                HS Hdir Hsrc) as (w2 & HCF).
    destruct (copyFile_fresh _ _ w1 w2 e0 HS HCF)
      as (data' & mode' & _ & _ & Hsrc2 & _).
    unfold bind at 1. rewrite HCF.
    unfold os.Remove, bind, sys, ret. cbn beta.
    rewrite (Remove_file _ _ _ _ Hsrc2). cbn [opErr]. eauto. }
  intros w'.
  unfold bind at 1.
  destruct (copyFile sourcePath destPath w1) as [[ec|] w2] eqn:HCF;
    [discriminate|].
  destruct (copyFile_fresh _ _ w1 w2 e0 HS HCF)
    as (data & mode & Hsrc1 & Hdst2 & Hsrc2 & Hapart).
  unfold os.Remove, bind, sys, ret. cbn beta.
  rewrite (Remove_file _ _ _ _ Hsrc2). cbn [opErr].
  intros [= <-].
  exists data, mode, (Z.land mode permMask). cbn [fs].
  destruct (resolve_Dir _ _ _ Hsrc2) as (md & esd & Hdir).
  assert (Hne : sourcePath <> []).
  { intros ->. unfold fsys.resolve, fsys.rootNode in Hsrc2. simpl in Hsrc2.
    discriminate. }
  repeat split.
  - eapply MkdirAll_keeps_files; eassumption.
  - rewrite unlink_resolve_apart by assumption. exact Hdst2.
  - now rewrite <- Z.land_assoc, Z.land_diag.
  - eapply unlink_resolve_same; eassumption.
Qed.

(** b.txt goes from /dump to /mnt/text, on the other volume. *)
Lemma moveFile_fallback_example :
  let src := ["dump"; "b.txt"] in
  let dst := ["mnt"; "text"; "b.txt"] in
  (moveFile src dst exampleWorld).1 = None
  /\ fsys.resolve exampleFS src = inr (File (bytes "beta") 420)
  /\ fsys.resolve (fs (moveFile src dst exampleWorld).2) dst
     = inr (File (bytes "beta") 420)
  /\ fsys.resolve (fs (moveFile src dst exampleWorld).2) src = inl ENOENT
  /\ exists data mode mode',
      fsys.resolve exampleFS src = inr (File data mode)
      /\ fsys.resolve (fs (moveFile src dst exampleWorld).2) dst
         = inr (File data mode')
      /\ Z.land mode' permMask = Z.land mode permMask
      /\ fsys.resolve (fs (moveFile src dst exampleWorld).2) src = inl ENOENT.
Proof.
  intros src dst.
  split; [vm_compute; reflexivity|].
  split; [vm_compute; reflexivity|].
  split; [vm_compute; reflexivity|].
  split; [vm_compute; reflexivity|].
  refine (proj1 (proj2 (moveFile_fallback
                          ["dump"; "b.txt"] ["mnt"; "text"; "b.txt"]
                          exampleWorld
                          (fsys.MkdirAll exampleFS ["mnt"; "text"] perm755).1
                          ENOENT EXDEV _ _ _)) _ _).
  - vm_compute. reflexivity.
  - vm_compute. reflexivity.
  - vm_compute. reflexivity.
  - vm_compute. reflexivity.
Defined.

End Relocator.

(** ** What the relocator writes to the log *)

Section Quiet.

Lemma quiet_ret {A} (a : A) : quiet (ret a).
Proof. intros w. exists []. simpl. now rewrite app_nil_r. Qed.

Lemma quiet_bind {A B} (m : M A) (k : A -> M B) :
  quiet m -> (forall a, quiet (k a)) -> quiet (bind m k).
Proof.
  intros Hm Hk w. unfold bind.
  destruct (Hm w) as (l1 & E1 & F1).
  destruct (m w) as [a w1]; simpl in E1.
  destruct (Hk a w1) as (l2 & E2 & F2).
  exists (l1 ++ l2)%list. split.
  - now rewrite E2, E1, app_assoc.
  - now apply Forall_app.
Qed.

Lemma quiet_sys {A} (f : FS -> FS * A) : quiet (sys f).
Proof.
  intros w. exists []. unfold sys. destruct (f (fs w)); simpl.
  now rewrite app_nil_r.
Qed.

Lemma quiet_ask {A} (f : FS -> A) : quiet (ask f).
Proof. intros w. exists []. simpl. now rewrite app_nil_r. Qed.

Lemma quiet_Printf (e : LogEntry) : isOutcome e = false -> quiet (Printf e).
Proof. intros He w. exists [e]. simpl. split; [reflexivity | now constructor]. Qed.

Ltac quiet_step :=
  first
    [ apply quiet_ret
    | apply quiet_sys
    | apply quiet_ask
    | apply quiet_Printf; reflexivity
    | apply quiet_bind; [| intros ?]
    | match goal with
      | |- quiet (match ?x with _ => _ end) => destruct x
      end ].

Lemma quiet_deferredClose what f err : quiet (deferredClose what f err).
Proof.
  unfold deferredClose, os.Close. repeat quiet_step.
Qed.

Lemma quiet_copyFile sourcePath destPath : quiet (copyFile sourcePath destPath).
Proof.
  unfold copyFile, os.Open, os.Create, os.Stat, os.Chmod, io.Copy.
  repeat first [apply quiet_deferredClose | quiet_step].
Qed.

Lemma quiet_moveFile sourcePath destPath : quiet (moveFile sourcePath destPath).
Proof.
  unfold moveFile, os.MkdirAll, os.Stat, os.Rename, os.Remove.
  repeat first [apply quiet_copyFile | quiet_step].
Qed.

End Quiet.

(** ** Counting in the log *)

Section Counting.

Lemma countLog_app p (l1 l2 : list LogEntry) :
  countLog p (l1 ++ l2)%list = countLog p l1 + countLog p l2.
Proof. unfold countLog. rewrite List.filter_app, length_app. lia. Qed.

Lemma countLog_nonneg p (l : list LogEntry) : 0 <= countLog p l.
Proof. unfold countLog. lia. Qed.

Lemma countLog_none p (l : list LogEntry) :
  Forall (fun e => p e = false) l -> countLog p l = 0.
Proof.
  unfold countLog. induction 1 as [|e l He _ IH]; simpl; [reflexivity|].
  now rewrite He.
Qed.

Lemma quiet_counts (l : list LogEntry) :
  Forall (fun e => isOutcome e = false) l ->
  countLog isSuccess l = 0
  /\ countLog isErrorMoving l = 0
  /\ countLog isNoMatch l = 0.
Proof.
  intros Hq. repeat split; apply countLog_none;
    (eapply Forall_impl; [exact Hq |]); intros e; unfold isOutcome;
    destruct e; simpl; congruence.
Qed.

Lemma incr_small (n : Z) : 0 <= n < 2 ^ 63 - 1 -> incr n = n + 1.
Proof.
  intros Hn. unfold incr, wrapInt.
  rewrite Z.mod_small; lia.
Qed.

End Counting.

(** ** The batch organizer *)

Section Organizer.

(** C2: the rules are tried in list order; the first one that matches
    gets the single call of [moveFile], with the rule's directory joined
    with the filename as destination, and the scan ends there whether the
    call fails or not: the rules after it play no part. *)
Theorem rangeDestinations_first_match (filename : string) (sourcePath : path)
    (pre : list Destination) (dest : Destination) (post : list Destination)
    (t : Tally) (w : World) :
  Forall (fun d => matchesPattern filename d = false) pre ->
  matchesPattern filename dest = true ->
  rangeDestinations filename sourcePath (pre ++ dest :: post)%list t w =
    (let destPath := filepath.Join (Path dest) filename in
     Printf (LogMoving sourcePath destPath) ;;;
     err <- moveFile sourcePath destPath ;;
     match err with
     | Some err =>
         Printf (LogErrorMoving filename err) ;;;
         ret ({| movedCount := movedCount t;
                 skippedCount := incr (skippedCount t) |}, false)
     | None =>
         Printf (LogSuccess filename) ;;;
         ret ({| movedCount := incr (movedCount t);
                 skippedCount := skippedCount t |}, true)
     end) w.
Proof.
  intros Hpre Hdest.
  induction Hpre as [|d pre Hd _ IH]; simpl.
  - now rewrite Hdest.
  - now rewrite Hd.
Qed.

(** What one scan of the rules leaves behind: a move, a failed move, or
    nothing at all. *)
Lemma rangeDestinations_outcome (filename : string) (sourcePath : path)
    (dests : list Destination) (t : Tally) (w : World)
    (t' : Tally) (moved : bool) (w' : World) :
  rangeDestinations filename sourcePath dests t w = ((t', moved), w') ->
  exists body,
    logged w' = (logged w ++ body)%list
    /\ countLog isNoMatch body = 0
    /\ ((moved = true
         /\ t' = {| movedCount := incr (movedCount t);
                    skippedCount := skippedCount t |}
         /\ countLog isSuccess body = 1
         /\ countLog isErrorMoving body = 0
         /\ In (LogSuccess filename) body)
        \/ (moved = false
            /\ t' = {| movedCount := movedCount t;
                       skippedCount := incr (skippedCount t) |}
            /\ countLog isSuccess body = 0
            /\ countLog isErrorMoving body = 1
            /\ exists err, In (LogErrorMoving filename err) body)
        \/ (moved = false /\ t' = t /\ body = [])).
Proof.
  induction dests as [|d rest IH]; simpl; intros Hrun.
  - injection Hrun as <- <- <-. exists []. rewrite app_nil_r.
    repeat split; auto.
  - destruct (matchesPattern filename d); [| now apply IH].
    unfold bind, Printf in Hrun.
    set (w1 := {| fs := fs w;
                  logged := (logged w ++
                    [LogMoving sourcePath (filepath.Join (Path d) filename)])%list |})
      in Hrun.
    destruct (quiet_moveFile sourcePath (filepath.Join (Path d) filename) w1)
      as (l & El & Fl).
    destruct (quiet_counts l Fl) as (Hs & He & Hn).
    destruct (moveFile sourcePath (filepath.Join (Path d) filename) w1)
      as [[err|] w2]; simpl in El, Hrun; injection Hrun as <- <- <-; simpl.
    + exists ([LogMoving sourcePath (filepath.Join (Path d) filename)]
                ++ l ++ [LogErrorMoving filename err])%list.
      split; [rewrite El; subst w1; simpl; now rewrite <- !app_assoc|].
      rewrite !countLog_app, Hs, He, Hn.
      split; [reflexivity|].
      right; left. repeat split; try reflexivity.
      exists err. apply in_or_app. right. apply in_or_app. right. now left.
    + exists ([LogMoving sourcePath (filepath.Join (Path d) filename)]
                ++ l ++ [LogSuccess filename])%list.
      split; [rewrite El; subst w1; simpl; now rewrite <- !app_assoc|].
      rewrite !countLog_app, Hs, He, Hn.
      split; [reflexivity|].
      left. repeat split; try reflexivity.
      apply in_or_app. right. apply in_or_app. right. now left.
Qed.

(** One directory entry: a directory leaves no trace, a file is moved or
    gets the "no match" line, the latter after a failed move as well. *)
Lemma organizeEntry_tally (config : Config) (file : DirEntry) (t : Tally)
    (w : World) (t' : Tally) (w' : World) :
  0 <= movedCount t -> 0 <= skippedCount t ->
  movedCount t + skippedCount t + 2 < 2 ^ 63 ->
  organizeEntry config file t w = (t', w') ->
  exists body,
    logged w' = (logged w ++ body)%list
    /\ movedCount t' = movedCount t + countLog isSuccess body
    /\ skippedCount t' =
         skippedCount t + countLog isErrorMoving body + countLog isNoMatch body
    /\ countLog isSuccess body + countLog isNoMatch body
       = (if IsDir file then 0 else 1)
    /\ countLog isErrorMoving body <= countLog isNoMatch body
    /\ (IsDir file = false ->
        exists e, In e body /\ outcomeFor (Name file) e).
Proof.
  intros Hm Hs Hbound. unfold organizeEntry.
  destruct (IsDir file).
  - unfold ret. intros Heq; injection Heq as <- <-. exists []. rewrite app_nil_r.
    repeat split; try (unfold countLog; simpl; lia).
  - unfold bind.
    destruct (rangeDestinations (Name file)
                (filepath.Join (DumpDirectory config) (Name file))
                (Destinations config) t w) as [[t1 moved] w1] eqn:Hscan.
    apply rangeDestinations_outcome in Hscan
      as (body & El & Hn & [(-> & -> & HS & HE & Hin)
                           | [(-> & -> & HS & HE & err & Hin)
                             | (-> & -> & ->)]]); simpl.
    + unfold ret. intros Heq; injection Heq as <- <-. exists body. simpl.
      rewrite HS, HE, Hn, incr_small by lia.
      repeat split; try lia; try assumption.
      intros _. exists (LogSuccess (Name file)). split; [assumption | now left].
    + unfold Printf, ret. intros Heq; injection Heq as <- <-. simpl.
      exists (body ++ [LogNoMatch (Name file)])%list.
      rewrite El, !countLog_app, HS, HE, Hn, <- app_assoc.
      rewrite (incr_small (skippedCount t)) by lia.
      rewrite incr_small by lia.
      repeat split; try (unfold countLog; simpl; lia).
      intros _. exists (LogNoMatch (Name file)).
      split; [apply in_or_app; right; now left | right; now right].
    + unfold Printf, ret. intros Heq; injection Heq as <- <-. simpl.
      exists [LogNoMatch (Name file)].
      rewrite app_nil_r in El. rewrite El, incr_small by lia.
      repeat split; try (unfold countLog; simpl; lia).
      intros _. exists (LogNoMatch (Name file)).
      split; [now left | right; now right].
Qed.

(** The whole listing. *)
Lemma rangeFiles_tally (config : Config) (files : list DirEntry) :
  forall (t : Tally) (w : World) (t' : Tally) (w' : World),
  0 <= movedCount t -> 0 <= skippedCount t ->
  movedCount t + skippedCount t + 2 * Z.of_nat (length files) < 2 ^ 63 ->
  rangeFiles config files t w = (t', w') ->
  exists body,
    logged w' = (logged w ++ body)%list
    /\ movedCount t' = movedCount t + countLog isSuccess body
    /\ skippedCount t' =
         skippedCount t + countLog isErrorMoving body + countLog isNoMatch body
    /\ countLog isSuccess body + countLog isNoMatch body
       = Z.of_nat (length (regularFiles files))
    /\ countLog isErrorMoving body <= countLog isNoMatch body
    /\ (forall file, In file files -> IsDir file = false ->
        exists e, In e body /\ outcomeFor (Name file) e).
Proof.
  induction files as [|file rest IH]; intros t w t' w' Hm Hs Hbound; simpl.
  - unfold ret. intros Heq; injection Heq as <- <-. exists []. rewrite app_nil_r.
    repeat split; try (unfold countLog; simpl; lia).
  - unfold bind.
    destruct (organizeEntry config file t w) as [t1 w1] eqn:Hentry.
    intros Hrest.
    rewrite length_cons in Hbound.
    apply organizeEntry_tally in Hentry
      as (b1 & El1 & Hm1 & Hs1 & Hfiles1 & Hle1 & Hout1); [| lia | lia | lia].
    pose proof (countLog_nonneg isSuccess b1).
    pose proof (countLog_nonneg isErrorMoving b1).
    pose proof (countLog_nonneg isNoMatch b1).
    assert (countLog isSuccess b1 + countLog isNoMatch b1 <= 1)
      by (destruct (IsDir file); lia).
    apply IH in Hrest
      as (b2 & El2 & Hm2 & Hs2 & Hfiles2 & Hle2 & Hout2); [| lia | lia | lia].
    exists (b1 ++ b2)%list. rewrite !countLog_app.
    split; [now rewrite El2, El1, app_assoc|].
    split; [lia|]. split; [lia|]. split.
    { destruct (IsDir file); simpl; rewrite ?length_cons; lia. }
    split; [lia|].
    intros f [<- | Hin] Hreg.
    + destruct (Hout1 Hreg) as (e & He & Ho).
      exists e. split; [apply in_or_app; now left | assumption].
    + destruct (Hout2 f Hin Hreg) as (e & He & Ho).
      exists e. split; [apply in_or_app; now right | assumption].
Qed.

(** A pass whose listing succeeds: it returns nil, and the log gets the
    lines of the files followed by the summary. *)
Lemma organizeFiles_listed (config : Config) (w : World)
    (files : list DirEntry) :
  fsys.ReadDir (fs w) (DumpDirectory config) = inr files ->
  2 * Z.of_nat (length files) < 2 ^ 63 ->
  exists body m s w',
    organizeFiles config w = (None, w')
    /\ logged w' = (logged w ++ body ++ [LogSummary m s])%list
    /\ m = countLog isSuccess body
    /\ s = countLog isErrorMoving body + countLog isNoMatch body
    /\ countLog isSuccess body + countLog isNoMatch body
       = Z.of_nat (length (regularFiles files))
    /\ countLog isErrorMoving body <= countLog isNoMatch body
    /\ (forall file, In file files -> IsDir file = false ->
        exists e, In e body /\ outcomeFor (Name file) e).
Proof.
  intros Hlist Hbound.
  unfold organizeFiles, os.ReadDir, bind, ask, ret, Printf. cbn beta.
  rewrite Hlist. cbn [opRes].
  destruct (rangeFiles config files {| movedCount := 0; skippedCount := 0 |} w)
    as [t' w1] eqn:Hrun.
  apply rangeFiles_tally in Hrun
    as (body & El & Hm & Hs & Hfiles & Hle & Hout); simpl; try lia.
  simpl in Hm, Hs.
  exists body, (movedCount t'), (skippedCount t'). eexists.
  split; [reflexivity|]. simpl.
  split; [now rewrite El, app_assoc|].
  repeat split; try assumption; lia.
Qed.

(** C5, as the code has it: [organizeFiles] hands its caller nothing but
    nil; the two counts stay inside and go to the log, as the summary
    line that ends the pass. There [movedCount] is the number of files
    moved, and [skippedCount] covers every file that was not. *)
Theorem organizeFiles_reports_in_log (config : Config) (w : World)
    (files : list DirEntry) :
  fsys.ReadDir (fs w) (DumpDirectory config) = inr files ->
  2 * Z.of_nat (length files) < 2 ^ 63 ->
  exists body m s w',
    organizeFiles config w = (None, w')
    /\ logged w' = (logged w ++ body ++ [LogSummary m s])%list
    /\ m = countLog isSuccess body
    /\ Z.of_nat (length (regularFiles files)) - m <= s.
Proof.
  intros Hlist Hbound.
  destruct (organizeFiles_listed config w files Hlist Hbound)
    as (body & m & s & w' & Hrun & Hlog & Hm & Hs & Hfiles & Hle & _).
  exists body, m, s, w'.
  pose proof (countLog_nonneg isErrorMoving body).
  repeat split; try assumption. lia.
Qed.

(** C6: a failed move of one file costs the pass nothing but a skip: the
    pass still returns nil, every file of the listing gets its outcome
    line, and each "Error moving" line is counted in [skippedCount].
    When the dump directory cannot be listed, the call as a whole fails
    with that error and touches no file. *)
Theorem organizeFiles_errors (config : Config) (w : World) :
  (forall e,
      fsys.ReadDir (fs w) (DumpDirectory config) = inl e ->
      let err := PathError "open" (DumpDirectory config) e in
      organizeFiles config w =
        (Some (Errorf "failed to read dump directory" err),
         {| fs := fs w;
            logged := (logged w ++
              [LogFailure "failed to read dump directory" (Some err)])%list |}))
  /\ (forall files,
      fsys.ReadDir (fs w) (DumpDirectory config) = inr files ->
      2 * Z.of_nat (length files) < 2 ^ 63 ->
      exists body m s w',
        organizeFiles config w = (None, w')
        /\ logged w' = (logged w ++ body ++ [LogSummary m s])%list
        /\ countLog isErrorMoving body <= s
        /\ (forall file, In file files -> IsDir file = false ->
            exists e, In e body /\ outcomeFor (Name file) e)).
Proof.
  split.
  - intros e Hlist err.
    unfold organizeFiles, os.ReadDir, bind, ask, ret, Printf. cbn beta.
    rewrite Hlist. reflexivity.
  - intros files Hlist Hbound.
    destruct (organizeFiles_listed config w files Hlist Hbound)
      as (body & m & s & w' & Hrun & Hlog & Hm & Hs & Hfiles & Hle & Hout).
    exists body, m, s, w'.
    pose proof (countLog_nonneg isNoMatch body).
    repeat split; try assumption. lia.
Qed.

(** The sum the summary line shows: one for every file of the listing,
    and one more for every move that failed. *)
Lemma organizeFiles_sum (config : Config) (w : World)
    (files : list DirEntry) :
  fsys.ReadDir (fs w) (DumpDirectory config) = inr files ->
  2 * Z.of_nat (length files) < 2 ^ 63 ->
  exists body m s w',
    organizeFiles config w = (None, w')
    /\ logged w' = (logged w ++ body ++ [LogSummary m s])%list
    /\ m + s = Z.of_nat (length (regularFiles files))
               + countLog isErrorMoving body.
Proof.
  intros Hlist Hbound.
  destruct (organizeFiles_listed config w files Hlist Hbound)
    as (body & m & s & w' & Hrun & Hlog & Hm & Hs & Hfiles & Hle & _).
  exists body, m, s, w'. repeat split; try assumption. lia.
Qed.

End Organizer.

(** ** The organizer on the example tree *)

Section OrganizerExamples.

Lemma exampleListing_ReadDir : fsys.ReadDir exampleFS ["dump"] = inr exampleListing.
Proof. vm_compute. reflexivity. Qed.

(** b.txt is passed by the first rule and taken by the second. *)
Lemma rangeDestinations_first_match_example :
  rangeDestinations "b.txt" ["dump"; "b.txt"] (Destinations exampleConfig)
    {| movedCount := 0; skippedCount := 0 |}
    exampleWorld =
    (Printf (LogMoving ["dump"; "b.txt"] ["mnt"; "text"; "b.txt"]) ;;;
     err <- moveFile ["dump"; "b.txt"] ["mnt"; "text"; "b.txt"] ;;
     match err with
     | Some err =>
         Printf (LogErrorMoving "b.txt" err) ;;;
         ret ({| movedCount := 0; skippedCount := incr 0 |}, false)
     | None =>
         Printf (LogSuccess "b.txt") ;;;
         ret ({| movedCount := incr 0; skippedCount := 0 |}, true)
     end) exampleWorld.
Proof.
  apply (rangeDestinations_first_match "b.txt" ["dump"; "b.txt"]
           [ {| Path := ["dst"]; Prefix := "a"; Suffix := "" |} ]
           {| Path := ["mnt"; "text"]; Prefix := ""; Suffix := ".txt" |}
           [] {| movedCount := 0; skippedCount := 0 |} exampleWorld).
  - constructor; [reflexivity | constructor].
  - reflexivity.
Defined.

(** Two passes that both return nil, one with a file moved and one with
    none: the value [organizeFiles] returns does not tell the counts. *)
Lemma organizeFiles_returns_nil_not_counts :
  let none := {| DumpDirectory := ["dump"]; Destinations := [] |} in
  (organizeFiles exampleConfig exampleWorld).1 = None
  /\ (organizeFiles none exampleWorld).1 = None
  /\ last (logged (organizeFiles exampleConfig exampleWorld).2)
     = Some (LogSummary 1 3)
  /\ last (logged (organizeFiles none exampleWorld).2)
     = Some (LogSummary 0 3)
  /\ ~ returnsTally.
Proof.
  intros none.
  split; [vm_compute; reflexivity|].
  split; [vm_compute; reflexivity|].
  split; [vm_compute; reflexivity|].
  split; [vm_compute; reflexivity|].
  intros [outcome Hout].
  pose proof (Hout exampleConfig exampleWorld exampleListing
                exampleListing_ReadDir) as Hmoved.
  pose proof (Hout {| DumpDirectory := ["dump"]; Destinations := [] |}
                exampleWorld exampleListing exampleListing_ReadDir) as Hnone.
  vm_compute in Hmoved. vm_compute in Hnone.
  rewrite Hmoved in Hnone. discriminate.
Qed.

Lemma organizeFiles_reports_in_log_example :
  exists body m s w',
    organizeFiles exampleConfig exampleWorld = (None, w')
    /\ logged w' = (logged exampleWorld ++ body ++ [LogSummary m s])%list
    /\ m = countLog isSuccess body
    /\ Z.of_nat (length (regularFiles exampleListing)) - m <= s.
Proof.
  apply (organizeFiles_reports_in_log exampleConfig exampleWorld exampleListing).
  - vm_compute. reflexivity.
  - vm_compute. reflexivity.
Defined.

Lemma organizeFiles_errors_example :
  exists body m s w',
    organizeFiles exampleConfig exampleWorld = (None, w')
    /\ logged w' = (logged exampleWorld ++ body ++ [LogSummary m s])%list
    /\ countLog isErrorMoving body <= s
    /\ (forall file, In file exampleListing -> IsDir file = false ->
        exists e, In e body /\ outcomeFor (Name file) e).
Proof.
  apply (proj2 (organizeFiles_errors exampleConfig exampleWorld) exampleListing).
  - vm_compute. reflexivity.
  - vm_compute. reflexivity.
Defined.

(** C9, where it breaks: /dump lists three files; a.txt matches the first
    rule and its move fails because /dst/a.txt is there, b.txt is moved,
    c.bin matches nothing. The summary says 1 moved and 3 skipped: a.txt
    was counted at the failed move and again at "no match". *)
Theorem organizeFiles_counts_failed_move_twice :
  fsys.ReadDir exampleFS ["dump"] = inr exampleListing
  /\ length (regularFiles exampleListing) = 3%nat
  /\ (organizeFiles exampleConfig exampleWorld).1 = None
  /\ logged (organizeFiles exampleConfig exampleWorld).2 =
       [ LogMoving ["dump"; "a.txt"] ["dst"; "a.txt"];
         LogDestinationExists ["dst"; "a.txt"];
         LogDestinationExists ["dst"; "a.txt"];
         LogErrorMoving "a.txt" (DestinationExists ["dst"; "a.txt"]);
         LogNoMatch "a.txt";
         LogMoving ["dump"; "b.txt"] ["mnt"; "text"; "b.txt"];
         LogFailure "failed to close destination file" None;
         LogFailure "failed to close source file" None;
         LogSuccess "b.txt";
         LogNoMatch "c.bin";
         LogSummary 1 3 ].
Proof. vm_compute. repeat split. Qed.

End OrganizerExamples.


(** ** The debounced watch loop *)

Section Debounce.

Lemma fire_unarmed (now : Z) (old : list Timer) :
  Forall (fun x => isArmed x = false) old ->
  fire now <$> old = old
  /\ filter (fun t => isDue now t = true) old = [].
Proof.
  induction 1 as [|x old Hx _ [IHf IHd]]; [split; reflexivity|].
  assert (Hdue : isDue now x = false).
  { unfold isDue. unfold isArmed in Hx. destruct (state x); congruence. }
  split.
  - rewrite fmap_cons, IHf. unfold fire. now rewrite Hdue.
  - rewrite filter_cons_False; [exact IHd | congruence].
Qed.

Lemma settle_unarmed (old : list Timer) :
  Forall (fun x => isArmed x = false) old ->
  filter (fun t => isDue (due t) t = true) old = [].
Proof.
  induction 1 as [|x old Hx _ IH]; [reflexivity|].
  rewrite filter_cons_False; [exact IH|].
  unfold isDue. unfold isArmed in Hx. destruct (state x); congruence.
Qed.

(** An event at [now] met by a loop armed at [t]: the old timer has fired
    if it was due, is stopped if not, and a new one is armed. *)
Lemma onReceive_armed (t now : Z) (l : Loop) :
  armedAt t l ->
  armedAt now (onReceive (Event now) l)
  /\ passes (onReceive (Event now) l) =
       (passes l ++ (if Z.leb (t + debounceDelay) now
                     then [t + debounceDelay] else []))%list.
Proof.
  intros (old & Hts & Htimer & Hold).
  destruct (fire_unarmed now old Hold) as [Hfire Hdue].
  unfold onReceive, elapse. cbn [timers timer passes].
  rewrite Hts, Htimer, fmap_app, filter_app, Hfire, Hdue. cbn [fmap list_fmap app].
  set (cur := AfterFunc t debounceDelay).
  assert (Halter : alter Stop (length old) (old ++ [fire now cur])%list
                   = (old ++ [Stop (fire now cur)])%list).
  { rewrite alter_app_r_alt by lia. now rewrite Nat.sub_diag. }
  rewrite Halter. split.
  - exists (old ++ [Stop (fire now cur)])%list. repeat split.
    apply Forall_app. split; [assumption|]. constructor; [| constructor].
    unfold cur, fire, isDue, AfterFunc, Stop, isArmed. cbn [state due].
    destruct (Z.leb (t + debounceDelay) now); reflexivity.
  - f_equal. unfold cur, isDue, AfterFunc. cbn [state due].
    destruct (Z.leb (t + debounceDelay) now) eqn:Hle.
    + rewrite filter_cons_True by (cbn [state due]; exact Hle). reflexivity.
    + rewrite filter_cons_False by (cbn [state due]; congruence). reflexivity.
Qed.

(** The first event: nothing to stop. *)
Lemma onReceive_idle (now : Z) :
  armedAt now (onReceive (Event now) idle)
  /\ passes (onReceive (Event now) idle) = [].
Proof.
  split; [| reflexivity].
  exists []. repeat split. constructor.
Qed.

Lemma settle_armed (t : Z) (l : Loop) :
  armedAt t l ->
  passes (settle l) = (passes l ++ [t + debounceDelay])%list.
Proof.
  intros (old & Hts & _ & Hold).
  unfold settle. cbn [passes]. rewrite Hts, filter_app, (settle_unarmed old Hold).
  f_equal. rewrite filter_cons_True.
  - reflexivity.
  - unfold isDue, AfterFunc. cbn [state due]. apply Z.leb_refl.
Qed.

(** After the shutdown nothing is left to fire. *)
Lemma onSignal_armed (t now : Z) (l : Loop) :
  armedAt t l ->
  passes (settle (onSignal now l)) = passes (elapse now l).
Proof.
  intros (old & Hts & Htimer & Hold).
  destruct (fire_unarmed now old Hold) as [Hfire Hdue].
  unfold settle, onSignal, elapse. cbn [timers timer passes].
  rewrite Hts, Htimer, fmap_app, Hfire. cbn [fmap list_fmap].
  set (cur := AfterFunc t debounceDelay).
  assert (Halter : alter Stop (length old) (old ++ [fire now cur])%list
                   = (old ++ [Stop (fire now cur)])%list).
  { rewrite alter_app_r_alt by lia. now rewrite Nat.sub_diag. }
  rewrite Halter.
  assert (Hnone : filter (fun x => isDue (due x) x = true)
                    (old ++ [Stop (fire now cur)])%list = []).
  { apply settle_unarmed. apply Forall_app. split; [assumption|].
    constructor; [| constructor].
    unfold cur, fire, isDue, AfterFunc, Stop, isArmed. cbn [state due].
    destruct (Z.leb (t + debounceDelay) now); reflexivity. }
  rewrite Hnone. cbn [fmap list_fmap]. now rewrite app_nil_r.
Qed.

Lemma last_cons (ts : list Z) (t t' : Z) :
  List.last (t' :: ts) t = List.last ts t'.
Proof.
  revert t t'. induction ts as [|z ts IH]; intros t t'; [reflexivity|].
  change (List.last (t' :: z :: ts) t) with (List.last (z :: ts) t).
  now rewrite (IH t z), (IH t' z).
Qed.

Lemma watchLoop_armed (ts : list Z) :
  forall (t : Z) (l : Loop),
  armedAt t l ->
  armedAt (List.last ts t) (watchLoop (Event <$> ts) l)
  /\ passes (settle (watchLoop (Event <$> ts) l)) = (passes l ++ debounced t ts)%list.
Proof.
  induction ts as [|t' ts IH]; intros t l Harmed.
  - split; [exact Harmed | now apply settle_armed].
  - destruct (onReceive_armed t t' l Harmed) as [Harmed' Hpasses].
    destruct (IH t' _ Harmed') as [Hlast Hrun].
    split.
    + rewrite last_cons. exact Hlast.
    + change (watchLoop (Event <$> t' :: ts) l)
        with (watchLoop (Event <$> ts) (onReceive (Event t') l)).
      rewrite Hrun, Hpasses, <- app_assoc. f_equal. cbn [debounced].
      destruct (Z.leb (t + debounceDelay) t'); reflexivity.
Qed.

(** The loop computes [debounced]. *)
Lemma passesOf_debounced (t : Z) (ts : list Z) :
  passesOf (t :: ts) = debounced t ts.
Proof.
  unfold passesOf.
  change (watchLoop (Event <$> t :: ts) idle)
    with (watchLoop (Event <$> ts) (onReceive (Event t) idle)).
  destruct (onReceive_idle t) as [Harmed Hpasses].
  destruct (watchLoop_armed ts t _ Harmed) as [_ Hrun].
  now rewrite Hrun, Hpasses.
Qed.

Lemma debounced_burst (ts : list Z) :
  forall t,
  spaced (fun a b => a <= b /\ b - a < debounceDelay) t ts ->
  debounced t ts = [List.last ts t + debounceDelay].
Proof.
  induction ts as [|t' ts IH]; intros t Hsp; [reflexivity|].
  destruct Hsp as [[Hle Hlt] Hsp]. cbn [debounced].
  destruct (Z.leb_spec (t + debounceDelay) t'); [lia|].
  now rewrite (IH t' Hsp), last_cons.
Qed.

Lemma debounced_sparse (ts : list Z) :
  forall t,
  spaced (fun a b => debounceDelay < b - a) t ts ->
  debounced t ts = (fun x => x + debounceDelay) <$> (t :: ts).
Proof.
  induction ts as [|t' ts IH]; intros t Hsp; [reflexivity|].
  destruct Hsp as [Hgt Hsp]. cbn [debounced].
  destruct (Z.leb_spec (t + debounceDelay) t'); [| lia].
  now rewrite (IH t' Hsp).
Qed.

(** C8: the delay is five seconds. Events that each come less than the
    delay after the one before lead to one pass, a delay after the last of
    them; events that each come more than the delay after the one before
    lead to one pass each. After every event the timer made for it is the
    only one armed: what was pending has been stopped. *)
Theorem debounce_collapsing (t : Z) (ts : list Z) :
  debounceDelay = 5 * Second
  /\ (spaced (fun a b => a <= b /\ b - a < debounceDelay) t ts ->
      passesOf (t :: ts) = [List.last ts t + debounceDelay])
  /\ (spaced (fun a b => debounceDelay < b - a) t ts ->
      passesOf (t :: ts) = (fun x => x + debounceDelay) <$> (t :: ts)
      /\ length (passesOf (t :: ts)) = length (t :: ts))
  /\ List.filter isArmed (timers (watchLoop (Event <$> t :: ts) idle))
     = [AfterFunc (List.last ts t) debounceDelay].
Proof.
  split; [reflexivity|]. split; [| split].
  - intros Hsp. rewrite passesOf_debounced. now apply debounced_burst.
  - intros Hsp. rewrite passesOf_debounced, (debounced_sparse ts t Hsp).
    split; [reflexivity | now rewrite length_fmap].
  - change (watchLoop (Event <$> t :: ts) idle)
      with (watchLoop (Event <$> ts) (onReceive (Event t) idle)).
    destruct (onReceive_idle t) as [Harmed _].
    destruct (watchLoop_armed ts t _ Harmed) as [(old & Hts & _ & Hold) _].
    rewrite Hts, List.filter_app.
    assert (Hnone : List.filter isArmed old = []).
    { clear Hts. induction Hold as [|x old Hx _ IH]; [reflexivity|].
      simpl. now rewrite Hx. }
    now rewrite Hnone.
Qed.

Lemma debounce_collapsing_example :
  passesOf [0; 1 * Second; 3 * Second] = [8 * Second]
  /\ passesOf [0; 6 * Second; 12 * Second]
     = [5 * Second; 11 * Second; 17 * Second].
Proof.
  split.
  - apply (proj1 (proj2 (debounce_collapsing 0 [1 * Second; 3 * Second]))).
    vm_compute. repeat split; discriminate.
  - apply (proj1 (proj2 (proj2 (debounce_collapsing 0 [6 * Second; 12 * Second])))).
    vm_compute. repeat split.
Defined.

End Debounce.

(** ** Start-up *)

Section StartUp.

(** The steps before the subscription end the process when they fail. *)
Lemma main_fatal_config (env : Startup) (w : World) (err : error) :
  openLogFile env = None ->
  loadConfig env = LoadError err ->
  (main env w).1 = Exited 1.
Proof. intros Hlog Hcfg. unfold main. now rewrite Hlog, Hcfg. Qed.

Lemma main_fatal_dump_missing (env : Startup) (w : World) (config : Config) :
  openLogFile env = None ->
  loadConfig env = LoadConfig config ->
  fsys.Stat (fs w) (DumpDirectory config) = inl ENOENT ->
  (main env w).1 = Exited 1.
Proof.
  intros Hlog Hcfg Hstat. unfold main. rewrite Hlog, Hcfg.
  unfold os.Stat, bind, ask, ret, Printf. cbn beta. cbn [fs logged].
  now rewrite Hstat.
Qed.

Lemma main_fatal_watcher (env : Startup) (w : World) (config : Config)
    (info : FileInfo) (err : error) :
  openLogFile env = None ->
  loadConfig env = LoadConfig config ->
  fsys.Stat (fs w) (DumpDirectory config) = inr info ->
  newWatcher env = Some err ->
  (main env w).1 = Exited 1.
Proof.
  intros Hlog Hcfg Hstat Hwatcher. unfold main. rewrite Hlog, Hcfg, Hwatcher.
  unfold os.Stat, bind, ask, ret, Printf. cbn beta. cbn [fs logged].
  now rewrite Hstat.
Qed.

(** A failed subscription does not: the error goes to the log and [main]
    goes on to wait for a signal. *)
Lemma main_subscription_failed (env : Startup) (w : World) (config : Config)
    (info : FileInfo) (err : error) :
  openLogFile env = None ->
  loadConfig env = LoadConfig config ->
  fsys.Stat (fs w) (DumpDirectory config) = inr info ->
  newWatcher env = None ->
  watcherAdd env = Some err ->
  (main env w).1 = Serving config false
  /\ In (LogError err) (logged (main env w).2).
Proof.
  intros Hlog Hcfg Hstat Hwatcher Hadd. unfold main.
  rewrite Hlog, Hcfg, Hwatcher, Hadd.
  unfold os.Stat, bind, ask, ret, Printf. cbn beta. cbn [fs logged].
  rewrite Hstat. cbn. split; [reflexivity|].
  rewrite !in_app_iff. left. right. now left.
Qed.

(** C7, where it breaks: the log file opens, the configuration loads, the
    dump directory is there and the watcher is made, but [watcher.Add]
    fails. [main] writes the error to the log, reports that the organizer
    has started and waits for a signal, with no subscription. *)
Theorem main_serves_without_subscription :
  main exampleStartup exampleWorld =
    (Serving exampleConfig false,
     {| fs := exampleFS;
        logged :=
          [ LogLine "This message is written to the log file.";
            LogLine "Dump directory";
            LogLine "Processing destination rules";
            LogError (PathError "inotify_add_watch" ["dump"] ENOSPC);
            LogLine "File organizer started. Press Ctrl+C to stop." ] |}).
Proof. vm_compute. reflexivity. Qed.

End StartUp.

(** ** What a change of the tree leaves alone *)

Section Frame.

(** A change at [p] is not seen at a [q] that is neither [p] nor below it:
    a file there stays the file it is, a directory stays a directory with
    its permission bits. *)
Lemma modify_keeps (f : option node -> option node) (p : path) :
  forall (q : path) (m : Z) (es : gmap string node) (n : node),
  ~ p `prefix_of` q ->
  fsys.walk (Directory m es) q = inr n ->
  exists n',
    fsys.walk (Directory m (fsys.modify f es p)) q = inr n'
    /\ match n with
       | File data mode => n' = File data mode
       | Directory mode _ => exists es', n' = Directory mode es'
       end.
Proof.
  induction p as [|c rest IH]; intros q m es n Hpq Hq.
  - exfalso. apply Hpq. apply prefix_nil.
  - destruct q as [|d q'].
    + cbn [fsys.walk] in Hq. injection Hq as <-.
      eexists. split; [reflexivity | eauto].
    + destruct (decide (c = d)) as [<- | Hcd].
      * assert (Hrest : ~ rest `prefix_of` q').
        { intros Hpre. apply Hpq. now apply prefix_cons. }
        destruct rest as [|c' rest']; [exfalso; apply Hrest; apply prefix_nil|].
        cbn [fsys.walk] in Hq. cbn [fsys.modify].
        destruct (es !! c) as [[data mode | m1 sub]|] eqn:Hc.
        -- exists n. cbn [fsys.walk]. rewrite Hc.
           split; [exact Hq | destruct n; eauto].
        -- destruct (IH q' m1 sub n Hrest Hq) as (n' & Hn' & Hkind).
           exists n'. cbn [fsys.walk]. rewrite lookup_insert_eq. auto.
        -- discriminate.
      * assert (Hlook : fsys.modify f es (c :: rest) !! d = es !! d).
        { destruct rest as [|c' rest']; cbn [fsys.modify].
          - now rewrite lookup_partial_alter_ne.
          - destruct (es !! c) as [[data mode | m1 sub]|]; try reflexivity.
            now rewrite lookup_insert_ne. }
        exists n. cbn [fsys.walk] in Hq |- *. rewrite Hlook.
        split; [exact Hq | destruct n; eauto].
Qed.

Lemma put_keeps_file (σ : FS) (p q : path) (n : node) data mode :
  ~ p `prefix_of` q ->
  fsys.resolve σ q = inr (File data mode) ->
  fsys.resolve (fsys.put σ p n) q = inr (File data mode).
Proof.
  intros Hpq Hq. unfold fsys.resolve, fsys.rootNode, fsys.put in *. simpl.
  destruct (modify_keeps (fun _ => Some n) p q _ _ _ Hpq Hq) as (n' & Hn' & ->).
  exact Hn'.
Qed.

Lemma unlink_keeps_file (σ : FS) (p q : path) data mode :
  ~ p `prefix_of` q ->
  fsys.resolve σ q = inr (File data mode) ->
  fsys.resolve (fsys.unlink σ p) q = inr (File data mode).
Proof.
  intros Hpq Hq. unfold fsys.resolve, fsys.rootNode, fsys.unlink in *. simpl.
  destruct (modify_keeps (fun _ => None) p q _ _ _ Hpq Hq) as (n' & Hn' & ->).
  exact Hn'.
Qed.

Lemma unlink_keeps_dir (σ : FS) (p q : path) (m : Z) es :
  ~ p `prefix_of` q ->
  fsys.resolve σ q = inr (Directory m es) ->
  exists es', fsys.resolve (fsys.unlink σ p) q = inr (Directory m es').
Proof.
  intros Hpq Hq. unfold fsys.resolve, fsys.rootNode, fsys.unlink in *. simpl.
  destruct (modify_keeps (fun _ => None) p q _ _ _ Hpq Hq)
    as (n' & Hn' & es' & ->).
  eauto.
Qed.

(** What resolves has nothing missing on the way to it. *)
Lemma missing_not_prefix (σ : FS) (p q : path) (e : errno) (n : node) :
  fsys.resolve σ p = inl e ->
  fsys.resolve σ q = inr n ->
  ~ p `prefix_of` q.
Proof.
  intros Hp Hq Hpre.
  destruct (decide (p = q)) as [-> | Hne]; [congruence|].
  destruct (resolve_through σ p q n Hq Hpre Hne) as (m & es & Habs).
  congruence.
Qed.

(** A file is on the way to nothing that resolves. *)
Lemma file_not_prefix (σ : FS) (p q : path) data mode (n : node) :
  fsys.resolve σ p = inr (File data mode) ->
  fsys.resolve σ q = inr n ->
  p <> q ->
  ~ p `prefix_of` q.
Proof.
  intros Hp Hq Hne Hpre.
  destruct (resolve_through σ p q n Hq Hpre Hne) as (m & es & Habs).
  congruence.
Qed.

End Frame.

(** ** More on the relocator *)

Section RelocatorFrame.

Lemma Mkdir_leaves_files (σ : FS) (p : path) (perm : Z) (q : path) data mode :
  fsys.resolve σ q = inr (File data mode) ->
  fsys.resolve (fsys.Mkdir σ p perm).1 q = inr (File data mode).
Proof.
  intros Hq. unfold fsys.Mkdir.
  destruct (fsys.resolve σ p) as [e|n] eqn:Hp; [| exact Hq].
  destruct p as [|c rest]; [exact Hq|].
  destruct (fsys.resolve σ (filepath.Dir (c :: rest)))
    as [e' | [d' m' | m' es']]; try exact Hq.
  cbn [fst]. apply put_keeps_file; [| exact Hq].
  eapply missing_not_prefix; eassumption.
Qed.

(** [MkdirAll] leaves the files that are there alone. *)
Lemma MkdirAll_leaves_files (σ : FS) (p : path) (perm : Z) (q : path) data mode :
  fsys.resolve σ q = inr (File data mode) ->
  fsys.resolve (fsys.MkdirAll σ p perm).1 q = inr (File data mode).
Proof.
  intros Hq. unfold fsys.MkdirAll. generalize (rev p) as rp. clear p.
  induction rp as [|c parent IH]; cbn [fsys.MkdirAll_up].
  - destruct (fsys.Stat σ (rev [])); exact Hq.
  - destruct (fsys.Stat σ (rev (c :: parent))); [| exact Hq].
    destruct (fsys.MkdirAll_up σ parent perm) as [σa [ea|]]; [exact IH|].
    cbn [fst] in IH.
    pose proof (Mkdir_leaves_files σa (rev (c :: parent)) perm q data mode IH)
      as Hmk.
    destruct (fsys.Mkdir σa (rev (c :: parent)) perm) as [σb [eb|]];
      cbn [fst] in Hmk; [| exact Hmk].
    destruct (fsys.Stat σb (rev (c :: parent))); exact Hmk.
Qed.

(** The rename of a regular file onto a free name in a directory that is
    there, on one volume, goes through. *)
Lemma Rename_file (σ : FS) (src dst : path) data mode (e : errno) (m : Z) es :
  fsys.resolve σ src = inr (File data mode) ->
  fsys.resolve σ dst = inl e ->
  fsys.resolve σ (filepath.Dir dst) = inr (Directory m es) ->
  device σ src = device σ dst ->
  fsys.Rename σ src dst = (fsys.put (fsys.unlink σ src) dst (File data mode), None).
Proof.
  intros Hsrc Hdst Hdir Hdev.
  assert (Hapart : apart src dst) by (eapply file_apart_missing; eauto).
  unfold fsys.Rename. rewrite Hsrc.
  destruct dst as [|c rest].
  { unfold fsys.resolve in Hdst. simpl in Hdst. discriminate. }
  rewrite Hdir, Hdev, Z.eqb_refl. cbn [negb].
  rewrite bool_decide_eq_false_2 by (intros ->; congruence).
  rewrite bool_decide_eq_false_2 by apply Hapart.
  now rewrite Hdst.
Qed.

(** ... and across volumes it is refused. *)
Lemma Rename_cross_device (σ : FS) (src dst : path) (n : node) (e : errno)
    (m : Z) es :
  fsys.resolve σ src = inr n ->
  fsys.resolve σ dst = inl e ->
  fsys.resolve σ (filepath.Dir dst) = inr (Directory m es) ->
  device σ src <> device σ dst ->
  fsys.Rename σ src dst = (σ, Some EXDEV).
Proof.
  intros Hsrc Hdst Hdir Hdev.
  unfold fsys.Rename. rewrite Hsrc.
  destruct dst as [|c rest].
  { unfold fsys.resolve in Hdst. simpl in Hdst. discriminate. }
  rewrite Hdir.
  destruct (Z.eqb_spec (device σ src) (device σ (c :: rest))); [congruence|].
  reflexivity.
Qed.

Lemma keeps_ret {A} q data mode (a : A) : keeps q data mode (ret a).
Proof. intros w Hq. exact Hq. Qed.

Lemma keeps_bind {A B} q data mode (m : M A) (k : A -> M B) :
  keeps q data mode m -> (forall a, keeps q data mode (k a)) ->
  keeps q data mode (bind m k).
Proof.
  intros Hm Hk w Hq. unfold bind.
  specialize (Hm w Hq). destruct (m w) as [a w1]. cbn [snd] in Hm.
  exact (Hk a w1 Hm).
Qed.

Lemma keeps_Printf q data mode (e : LogEntry) : keeps q data mode (Printf e).
Proof. intros w Hq. exact Hq. Qed.

Lemma keeps_ask {A} q data mode (f : FS -> A) : keeps q data mode (ask f).
Proof. intros w Hq. exact Hq. Qed.

Lemma keeps_sys {A} q data mode (f : FS -> FS * A) :
  (forall σ, fsys.resolve σ q = inr (File data mode) ->
             fsys.resolve (f σ).1 q = inr (File data mode)) ->
  keeps q data mode (sys f).
Proof.
  intros Hf w Hq. unfold sys. specialize (Hf (fs w) Hq).
  destruct (f (fs w)) as [σ a]. exact Hf.
Qed.

Lemma Create_leaves (σ : FS) (p q : path) data mode :
  ~ p `prefix_of` q ->
  fsys.resolve σ q = inr (File data mode) ->
  fsys.resolve (fsys.Create σ p).1 q = inr (File data mode).
Proof.
  intros Hpq Hq. unfold fsys.Create.
  repeat match goal with
    | |- context [match ?x with _ => _ end] => destruct x
    end; cbn [fst]; try exact Hq; now apply put_keeps_file.
Qed.

Lemma Copy_leaves (σ : FS) (dst src q : path) data mode :
  ~ dst `prefix_of` q ->
  fsys.resolve σ q = inr (File data mode) ->
  fsys.resolve (fsys.Copy σ dst src).1 q = inr (File data mode).
Proof.
  intros Hpq Hq. unfold fsys.Copy.
  repeat match goal with
    | |- context [match ?x with _ => _ end] => destruct x
    end; cbn [fst]; try exact Hq; now apply put_keeps_file.
Qed.

Lemma Chmod_leaves (σ : FS) (p q : path) (perm : Z) data mode :
  ~ p `prefix_of` q ->
  fsys.resolve σ q = inr (File data mode) ->
  fsys.resolve (fsys.Chmod σ p perm).1 q = inr (File data mode).
Proof.
  intros Hpq Hq. unfold fsys.Chmod.
  repeat match goal with
    | |- context [match ?x with _ => _ end] => destruct x
    end; cbn [fst]; try exact Hq; now apply put_keeps_file.
Qed.

Lemma Remove_leaves (σ : FS) (p q : path) data mode :
  ~ p `prefix_of` q ->
  fsys.resolve σ q = inr (File data mode) ->
  fsys.resolve (fsys.Remove σ p).1 q = inr (File data mode).
Proof.
  intros Hpq Hq. unfold fsys.Remove.
  repeat match goal with
    | |- context [match ?x with _ => _ end] => destruct x
    end; cbn [fst]; try exact Hq; now apply unlink_keeps_file.
Qed.

Lemma Rename_leaves (σ : FS) (src dst q : path) data mode :
  ~ src `prefix_of` q -> ~ dst `prefix_of` q ->
  fsys.resolve σ q = inr (File data mode) ->
  fsys.resolve (fsys.Rename σ src dst).1 q = inr (File data mode).
Proof.
  intros Hsq Hdq Hq. unfold fsys.Rename.
  repeat match goal with
    | |- context [match ?x with _ => _ end] => destruct x
    end; cbn [fst]; try exact Hq;
    apply put_keeps_file; try assumption; now apply unlink_keeps_file.
Qed.

End RelocatorFrame.

Ltac keeps_step :=
  first
    [ apply keeps_ret
    | apply keeps_Printf
    | apply keeps_ask
    | apply keeps_bind; [| intros ?]
    | match goal with
      | |- keeps _ _ _ (match ?x with _ => _ end) => destruct x
      end ].

Section RelocatorMore.


Lemma keeps_bind_val {A B} q data mode (m : M A) (k : A -> M B)
    (P : A -> Prop) :
  (forall w, P (m w).1) ->
  keeps q data mode m -> (forall a, P a -> keeps q data mode (k a)) ->
  keeps q data mode (bind m k).
Proof.
  intros HP Hm Hk w Hq. unfold bind.
  specialize (Hm w Hq). specialize (HP w).
  destruct (m w) as [a w1]. cbn [fst snd] in *.
  exact (Hk a HP w1 Hm).
Qed.

(** The file [os.Create] hands back is the one it was asked for. *)
Lemma Create_handle (p : path) (w : World) (h : path) :
  (os.Create p w).1 = inr h -> h = p.
Proof.
  unfold os.Create, bind, sys, ret.
  destruct (fsys.Create (fs w) p) as [σ r] eqn:HC. cbn [fst].
  destruct r as [e | h']; cbn [opRes]; [discriminate|].
  intros [= <-]. revert HC. unfold fsys.Create.
  repeat match goal with
    | |- context [match ?x with _ => _ end] => destruct x
    end; congruence.
Qed.

Lemma keeps_copyFile (sourcePath destPath q : path) data mode :
  ~ destPath `prefix_of` q ->
  keeps q data mode (copyFile sourcePath destPath).
Proof.
  intros Hdq. unfold copyFile.
  apply keeps_bind; [unfold os.Open; repeat keeps_step | intros r].
  destruct r as [err | sourceFile];
    [unfold deferredClose, os.Close; repeat keeps_step|].
  apply (keeps_bind_val _ _ _ _ _ (fun r => forall h, r = inr h -> h = destPath)).
  { intros w h. apply Create_handle. }
  { unfold os.Create. repeat keeps_step.
    apply keeps_sys. intros σ Hq. now apply Create_leaves. }
  intros r Hr. destruct r as [err | destFile];
    [unfold deferredClose, os.Close; repeat keeps_step|].
  rewrite (Hr destFile eq_refl).
  unfold deferredClose, os.Stat, os.Chmod, os.Close, io.Copy.
  repeat first
    [ keeps_step
    | apply keeps_sys; intros σ Hq;
      first [ now apply Copy_leaves | now apply Chmod_leaves ] ].
Qed.

(** The part of [moveFile] that comes after the check of the destination. *)
Lemma keeps_rename_or_copy (sourcePath destPath q : path) data mode :
  ~ sourcePath `prefix_of` q -> ~ destPath `prefix_of` q ->
  keeps q data mode
    (err <- os.Rename sourcePath destPath ;;
     match err with
     | None => ret None
     | Some _ =>
         err <- copyFile sourcePath destPath ;;
         match err with
         | Some err =>
             Printf (LogFailure "failed to copy file" (Some err)) ;;;
             ret (Some (Errorf "failed to copy file" err))
         | None =>
             err <- os.Remove sourcePath ;;
             match err with
             | Some err =>
                 Printf (LogFailure "failed to remove source file" (Some err)) ;;;
                 ret (Some (Errorf "failed to remove source file" err))
             | None => ret None
             end
         end
     end).
Proof.
  intros Hsq Hdq. unfold os.Rename, os.Remove.
  repeat first
    [ now apply keeps_copyFile
    | keeps_step
    | apply keeps_sys; intros σ Hq;
      first [ now apply Rename_leaves | now apply Remove_leaves ] ].
Qed.

(** [moveFile] leaves every regular file alone that is not its source nor
    inside it. *)
Lemma keeps_moveFile (sourcePath destPath q : path) data mode :
  ~ sourcePath `prefix_of` q ->
  keeps q data mode (moveFile sourcePath destPath).
Proof.
  intros Hsq w Hq. unfold moveFile.
  rewrite bind_run.
  destruct (fsys.MkdirAll (fs w) (filepath.Dir destPath) perm755)
    as [σ1 r] eqn:HM.
  rewrite (MkdirAll_run _ _ _ _ _ HM).
  assert (Hq1 : fsys.resolve σ1 q = inr (File data mode)).
  { pose proof (MkdirAll_leaves_files (fs w) (filepath.Dir destPath) perm755
                  q data mode Hq) as H. now rewrite HM in H. }
  destruct r as [e|]; cbn [opErr]; [exact Hq1|].
  rewrite bind_run, Stat_run. cbn [fs].
  destruct (fsys.Stat σ1 destPath) as [e0|info] eqn:HS; cbn [opRes];
    [| exact Hq1].
  apply Stat_inl in HS.
  apply keeps_rename_or_copy; try assumption.
  eapply missing_not_prefix; eassumption.
Qed.

(** [moveFile] when the rename goes through. *)
Lemma moveFile_renamed (sourcePath destPath : path) (w : World) (σ1 : FS)
    (e0 : errno) data mode :
  fsys.MkdirAll (fs w) (filepath.Dir destPath) perm755 = (σ1, None) ->
  fsys.Stat σ1 destPath = inl e0 ->
  fsys.resolve σ1 sourcePath = inr (File data mode) ->
  device σ1 sourcePath = device σ1 destPath ->
  moveFile sourcePath destPath w =
    (None,
     {| fs := fsys.put (fsys.unlink σ1 sourcePath) destPath (File data mode);
        logged := logged w |}).
Proof.
  intros HM HS Hsrc Hdev.
  destruct (MkdirAll_ok_dir _ _ _ _ HM) as (md & esd & Hdir).
  pose proof (Rename_file σ1 sourcePath destPath data mode e0 md esd
                Hsrc (Stat_inl _ _ _ HS) Hdir Hdev) as HR.
  unfold moveFile.
  rewrite bind_run, (MkdirAll_run _ _ _ _ _ HM). cbn [opErr].
  rewrite bind_run, Stat_run. cbn [fs]. rewrite HS. cbn [opRes].
  rewrite bind_run, (Rename_run _ _ {| fs := σ1; logged := logged w |} _ _ HR).
  reflexivity.
Qed.

(** X1: a regular file moved within one volume onto a free name: the
    rename does it all. [moveFile] returns nil and writes nothing to the
    log; the destination is the file the source was, bytes and mode, and
    the source is gone. *)
Theorem moveFile_same_volume (sourcePath destPath : path) (w : World) (σ1 : FS)
    (e0 : errno) data mode :
  fsys.MkdirAll (fs w) (filepath.Dir destPath) perm755 = (σ1, None) ->
  fsys.Stat σ1 destPath = inl e0 ->
  fsys.resolve σ1 sourcePath = inr (File data mode) ->
  device σ1 sourcePath = device σ1 destPath ->
  exists w',
    moveFile sourcePath destPath w = (None, w')
    /\ logged w' = logged w
    /\ fsys.resolve (fs w) sourcePath = inr (File data mode)
    /\ fsys.resolve (fs w') destPath = inr (File data mode)
    /\ fsys.resolve (fs w') sourcePath = inl ENOENT.
Proof.
  intros HM HS Hsrc Hdev.
  eexists. split; [eapply moveFile_renamed; eassumption|]. cbn [fs logged].
  destruct (MkdirAll_ok_dir _ _ _ _ HM) as (md & esd & Hdir).
  pose proof (Stat_inl _ _ _ HS) as Hdst.
  assert (Hapart : apart sourcePath destPath)
    by (eapply file_apart_missing; eauto).
  assert (Hne : sourcePath <> []).
  { intros ->. unfold fsys.resolve, fsys.rootNode in Hsrc. simpl in Hsrc.
    discriminate. }
  assert (Hdne : destPath <> []).
  { intros ->. unfold fsys.resolve in Hdst. simpl in Hdst. discriminate. }
  destruct (resolve_Dir _ _ _ Hsrc) as (ms & ess & Hsdir).
  repeat split.
  - eapply MkdirAll_keeps_files; eassumption.
  - destruct (unlink_keeps_dir σ1 sourcePath (filepath.Dir destPath) md esd)
      as (es' & Hdir'); [| exact Hdir |].
    + eapply file_not_prefix; [exact Hsrc | exact Hdir | congruence].
    + eapply put_resolve_same; eassumption.
  - rewrite put_resolve_apart by (destruct Hapart; now split).
    eapply unlink_resolve_same; eassumption.
Qed.

(** a.txt goes from /dump to /dump/sub. *)
Lemma moveFile_same_volume_example :
  exists w',
    moveFile ["dump"; "a.txt"] ["dump"; "sub"; "a.txt"] exampleWorld = (None, w')
    /\ logged w' = logged exampleWorld
    /\ fsys.resolve (fs exampleWorld) ["dump"; "a.txt"]
       = inr (File (bytes "alpha") 384)
    /\ fsys.resolve (fs w') ["dump"; "sub"; "a.txt"]
       = inr (File (bytes "alpha") 384)
    /\ fsys.resolve (fs w') ["dump"; "a.txt"] = inl ENOENT.
Proof.
  apply (moveFile_same_volume ["dump"; "a.txt"] ["dump"; "sub"; "a.txt"]
           exampleWorld exampleFS ENOENT).
  - vm_compute. reflexivity.
  - vm_compute. reflexivity.
  - vm_compute. reflexivity.
  - reflexivity.
Defined.

(** X2: a [moveFile] that fails has not lost the source: the regular file
    it was called for is still there, as it was. *)
Theorem moveFile_error_keeps_source (sourcePath destPath : path) (w w' : World)
    (err : error) data mode :
  fsys.resolve (fs w) sourcePath = inr (File data mode) ->
  moveFile sourcePath destPath w = (Some err, w') ->
  fsys.resolve (fs w') sourcePath = inr (File data mode).
Proof.
  intros Hsrc.
  destruct (fsys.MkdirAll (fs w) (filepath.Dir destPath) perm755)
    as [σ1 r] eqn:HM.
  assert (Hsrc1 : fsys.resolve σ1 sourcePath = inr (File data mode)).
  { pose proof (MkdirAll_leaves_files (fs w) (filepath.Dir destPath) perm755
                  sourcePath data mode Hsrc) as H. now rewrite HM in H. }
  destruct r as [em|].
  { unfold moveFile. rewrite bind_run, (MkdirAll_run _ _ _ _ _ HM).
    cbn [opErr]. unfold Printf, bind, ret. intros [= _ <-]. exact Hsrc1. }
  destruct (fsys.Stat σ1 destPath) as [e0|info] eqn:HS.
  2: { unfold moveFile. rewrite bind_run, (MkdirAll_run _ _ _ _ _ HM).
       cbn [opErr]. rewrite bind_run, Stat_run. cbn [fs]. rewrite HS.
       cbn [opRes]. unfold Printf, bind, ret. intros [= _ <-]. exact Hsrc1. }
  destruct (MkdirAll_ok_dir _ _ _ _ HM) as (md & esd & Hdir).
  pose proof (Stat_inl _ _ _ HS) as Hdst.
  destruct (decide (device σ1 sourcePath = device σ1 destPath)) as [Hdev|Hdev].
  - rewrite (moveFile_renamed _ _ _ _ _ _ _ HM HS Hsrc1 Hdev). discriminate.
  - pose proof (Rename_cross_device σ1 sourcePath destPath _ e0 md esd
                  Hsrc1 Hdst Hdir Hdev) as HR.
    rewrite (moveFile_after_rename _ _ _ σ1 e0 EXDEV HM HS)
      by (now rewrite HR).
    set (w1 := {| fs := σ1; logged := logged w |}).
    destruct (copyFile_fresh_succeeds sourcePath destPath w1 e0 data mode md esd
                Hdst Hdir Hsrc1) as (w2 & HCF).
    destruct (copyFile_fresh _ _ w1 w2 e0 Hdst HCF)
      as (data' & mode' & _ & _ & Hsrc2 & _).
    rewrite bind_run, HCF.
    unfold os.Remove, bind, sys, ret. cbn beta.
    rewrite (Remove_file _ _ _ _ Hsrc2). discriminate.
Qed.

(** a.txt is not moved onto the a.txt that /dst has, and stays. *)
Lemma moveFile_error_keeps_source_example :
  fsys.resolve
    (fs (moveFile ["dump"; "a.txt"] ["dst"; "a.txt"] exampleWorld).2)
    ["dump"; "a.txt"]
  = inr (File (bytes "alpha") 384).
Proof.
  apply (moveFile_error_keeps_source ["dump"; "a.txt"] ["dst"; "a.txt"]
           exampleWorld _ (DestinationExists ["dst"; "a.txt"])).
  - vm_compute. reflexivity.
  - vm_compute. reflexivity.
Defined.

(** X3: [moveFile] changes no regular file but its source: whatever file
    is there at a path that is not the source, nor inside it, is there
    afterwards with the same bytes and mode, whether the move succeeds or
    fails. *)
Theorem moveFile_leaves_other_files (sourcePath destPath q : path) (w : World)
    data mode :
  fsys.resolve (fs w) q = inr (File data mode) ->
  ~ sourcePath `prefix_of` q ->
  fsys.resolve (fs (moveFile sourcePath destPath w).2) q = inr (File data mode).
Proof.
  intros Hq Hsq. now apply keeps_moveFile.
Qed.

(** b.txt goes to the other volume, a.txt is as it was. *)
Lemma moveFile_leaves_other_files_example :
  fsys.resolve
    (fs (moveFile ["dump"; "b.txt"] ["mnt"; "text"; "b.txt"] exampleWorld).2)
    ["dump"; "a.txt"]
  = inr (File (bytes "alpha") 384).
Proof.
  apply (moveFile_leaves_other_files ["dump"; "b.txt"] ["mnt"; "text"; "b.txt"]
           ["dump"; "a.txt"] exampleWorld).
  - vm_compute. reflexivity.
  - intros [k Hk]. discriminate Hk.
Defined.

End RelocatorMore.

(** ** [copyFile] on its own *)

Section CopyFile.


Lemma Open_run (p : path) (w : World) :
  os.Open p w = (opRes "open" p (fsys.Open (fs w) p), w).
Proof. reflexivity. Qed.

Lemma Create_run (p : path) (w : World) (σ : FS) (r : errno + path) :
  fsys.Create (fs w) p = (σ, r) ->
  os.Create p w = (opRes "open" p r, {| fs := σ; logged := logged w |}).
Proof. intros H. unfold os.Create, bind, sys, ret. now rewrite H. Qed.

Lemma Copy_run (dst src : path) (w : World) (σ : FS) (r : errno + Z) :
  fsys.Copy (fs w) dst src = (σ, r) ->
  io.Copy dst src w = (opRes "read" src r, {| fs := σ; logged := logged w |}).
Proof. intros H. unfold io.Copy, bind, sys, ret. now rewrite H. Qed.

Lemma Chmod_run (p : path) (mode : Z) (w : World) (σ : FS) (r : option errno) :
  fsys.Chmod (fs w) p mode = (σ, r) ->
  os.Chmod p mode w = (opErr "chmod" p r, {| fs := σ; logged := logged w |}).
Proof. intros H. unfold os.Chmod, bind, sys, ret. now rewrite H. Qed.

Lemma deferred_both (destFile sourceFile : path) (res : option error) (w : World) :
  (err <- deferredClose "failed to close destination file" (Some destFile) None ;;
   err <- deferredClose "failed to close source file" (Some sourceFile) err ;;
   ret res) w
  = (res, {| fs := fs w; logged := (logged w ++ closeLines)%list |}).
Proof.
  unfold deferredClose, os.Close, bind, ret, Printf, closeLines. cbn.
  now rewrite <- app_assoc.
Qed.

(** X4: [copyFile] does not check the destination: a regular file that is
    there is overwritten with the source's bytes and gets the source's
    permission bits (its own name and place it keeps); the source stays as
    it is. The check is [moveFile]'s. *)
Theorem copyFile_overwrites (sourcePath destPath : path) (w : World)
    data mode old m0 :
  fsys.resolve (fs w) sourcePath = inr (File data mode) ->
  fsys.resolve (fs w) destPath = inr (File old m0) ->
  sourcePath <> destPath ->
  exists w',
    copyFile sourcePath destPath w = (None, w')
    /\ fsys.resolve (fs w') destPath = inr (File data (Z.land mode permMask))
    /\ fsys.resolve (fs w') sourcePath = inr (File data mode).
Proof.
  intros Hsrc Hdst Hne.
  assert (Hds : ~ destPath `prefix_of` sourcePath)
    by (eapply file_not_prefix; eauto).
  assert (Hdne : destPath <> []).
  { intros ->. unfold fsys.resolve, fsys.rootNode in Hdst. simpl in Hdst.
    discriminate. }
  destruct (resolve_Dir _ _ _ Hdst) as (md & esd & Hdir).
  set (σ2 := fsys.put (fs w) destPath (File [] m0)).
  assert (Hdst2 : fsys.resolve σ2 destPath = inr (File [] m0))
    by (eapply put_resolve_same; eassumption).
  assert (Hsrc2 : fsys.resolve σ2 sourcePath = inr (File data mode))
    by (now apply put_keeps_file).
  destruct (resolve_Dir _ _ _ Hdst2) as (md2 & esd2 & Hdir2).
  set (σ3 := fsys.put σ2 destPath (File data m0)).
  assert (Hdst3 : fsys.resolve σ3 destPath = inr (File data m0))
    by (eapply put_resolve_same; eassumption).
  assert (Hsrc3 : fsys.resolve σ3 sourcePath = inr (File data mode))
    by (now apply put_keeps_file).
  destruct (resolve_Dir _ _ _ Hdst3) as (md3 & esd3 & Hdir3).
  set (σ4 := fsys.put σ3 destPath (File data (Z.land mode permMask))).
  exists {| fs := σ4; logged := (logged w ++ closeLines)%list |}.
  split; [| split].
  - unfold copyFile.
    rewrite bind_run, Open_run. unfold fsys.Open. rewrite Hsrc. cbn [opRes].
    assert (HC : fsys.Create (fs w) destPath = (σ2, inr destPath))
      by (unfold fsys.Create; now rewrite Hdst).
    rewrite bind_run, (Create_run _ _ _ _ HC). cbn [opRes].
    assert (HCp : fsys.Copy σ2 destPath sourcePath
                  = (σ3, inr (Z.of_nat (length data))))
      by (unfold fsys.Copy; now rewrite Hsrc2, Hdst2).
    rewrite bind_run, (Copy_run _ _ {| fs := σ2; logged := logged w |} _ _ HCp).
    cbn [opRes fs logged].
    rewrite bind_run, Stat_run. cbn [fs].
    rewrite (Stat_resolve _ _ _ Hsrc3). cbn [opRes infoOf Mode].
    rewrite bind_run,
      (Chmod_run _ _ {| fs := σ3; logged := logged w |} _ _
         (Chmod_file _ _ mode _ _ Hdst3)).
    cbn [opErr fs logged]. now rewrite deferred_both.
  - cbn [fs]. eapply put_resolve_same; eassumption.
  - cbn [fs]. now apply put_keeps_file.
Qed.

(** b.txt is copied over the a.txt that /dst has. *)
Lemma copyFile_overwrites_example :
  exists w',
    copyFile ["dump"; "b.txt"] ["dst"; "a.txt"] exampleWorld = (None, w')
    /\ fsys.resolve (fs w') ["dst"; "a.txt"]
       = inr (File (bytes "beta") (Z.land 420 permMask))
    /\ fsys.resolve (fs w') ["dump"; "b.txt"] = inr (File (bytes "beta") 420).
Proof.
  apply (copyFile_overwrites ["dump"; "b.txt"] ["dst"; "a.txt"] exampleWorld
           (bytes "beta") 420 (bytes "old") 420).
  - vm_compute. reflexivity.
  - vm_compute. reflexivity.
  - discriminate.
Defined.

(** X5: [copyFile] of a regular file onto itself empties it: the create
    truncates the file before anything is read, and the copy then finds
    nothing to read. [copyFile] returns nil all the same. *)
Theorem copyFile_onto_itself (p : path) (w : World) data mode :
  fsys.resolve (fs w) p = inr (File data mode) ->
  exists w',
    copyFile p p w = (None, w')
    /\ fsys.resolve (fs w') p = inr (File [] (Z.land mode permMask)).
Proof.
  intros Hp.
  assert (Hne : p <> []).
  { intros ->. unfold fsys.resolve, fsys.rootNode in Hp. simpl in Hp.
    discriminate. }
  destruct (resolve_Dir _ _ _ Hp) as (md & esd & Hdir).
  set (σ2 := fsys.put (fs w) p (File [] mode)).
  assert (Hp2 : fsys.resolve σ2 p = inr (File [] mode))
    by (eapply put_resolve_same; eassumption).
  destruct (resolve_Dir _ _ _ Hp2) as (md2 & esd2 & Hdir2).
  set (σ3 := fsys.put σ2 p (File [] mode)).
  assert (Hp3 : fsys.resolve σ3 p = inr (File [] mode))
    by (eapply put_resolve_same; eassumption).
  destruct (resolve_Dir _ _ _ Hp3) as (md3 & esd3 & Hdir3).
  set (σ4 := fsys.put σ3 p (File [] (Z.land mode permMask))).
  exists {| fs := σ4; logged := (logged w ++ closeLines)%list |}.
  split.
  - unfold copyFile.
    rewrite bind_run, Open_run. unfold fsys.Open. rewrite Hp. cbn [opRes].
    assert (HC : fsys.Create (fs w) p = (σ2, inr p))
      by (unfold fsys.Create; now rewrite Hp).
    rewrite bind_run, (Create_run _ _ _ _ HC). cbn [opRes].
    assert (HCp : fsys.Copy σ2 p p = (σ3, inr 0))
      by (unfold fsys.Copy; now rewrite Hp2).
    rewrite bind_run, (Copy_run _ _ {| fs := σ2; logged := logged w |} _ _ HCp).
    cbn [opRes fs logged].
    rewrite bind_run, Stat_run. cbn [fs].
    rewrite (Stat_resolve _ _ _ Hp3). cbn [opRes infoOf Mode].
    rewrite bind_run,
      (Chmod_run _ _ {| fs := σ3; logged := logged w |} _ _
         (Chmod_file _ _ mode _ _ Hp3)).
    cbn [opErr fs logged]. now rewrite deferred_both.
  - cbn [fs]. eapply put_resolve_same; eassumption.
Qed.

Lemma copyFile_onto_itself_example :
  exists w',
    copyFile ["dump"; "a.txt"] ["dump"; "a.txt"] exampleWorld = (None, w')
    /\ fsys.resolve (fs w') ["dump"; "a.txt"]
       = inr (File [] (Z.land 384 permMask)).
Proof.
  apply (copyFile_onto_itself ["dump"; "a.txt"] exampleWorld (bytes "alpha") 384).
  vm_compute. reflexivity.
Defined.



(** X7: a [copyFile] that returns nil has written two lines to the log,
    "failed to close destination file" and "failed to close source file",
    each with a nil error: the deferred closures write their line when
    the function's [err] is nil, not when the close fails. *)
Theorem copyFile_success_log (sourcePath destPath : path) (w w' : World) :
  copyFile sourcePath destPath w = (None, w') ->
  logged w' = (logged w ++ closeLines)%list.
Proof.
  unfold copyFile, deferredClose, os.Open, os.Create, io.Copy, os.Stat, os.Chmod,
    os.Close, bind, sys, ask, ret, Printf. cbn beta.
  destruct (fsys.Open (fs w) sourcePath) as [eo | sourceFile];
    cbn [opRes]; [discriminate|].
  destruct (fsys.Create (fs w) destPath) as [σ2 [ec | destFile]];
    cbn [opRes fs logged]; [discriminate|].
  destruct (fsys.Copy σ2 destFile sourceFile) as [σ3 [ecp | k]];
    cbn [opRes fs logged]; [discriminate|].
  destruct (fsys.Stat σ3 sourcePath) as [es | info];
    cbn [opRes fs logged]; [discriminate|].
  destruct (fsys.Chmod σ3 destPath (Mode info)) as [σ4 [ech|]];
    cbn [opErr fs logged]; [discriminate|].
  intros [= <-]. cbn [logged]. unfold closeLines. now rewrite <- app_assoc.
Qed.

Lemma copyFile_success_log_example :
  logged (copyFile ["dump"; "b.txt"] ["dst"; "b.txt"] exampleWorld).2
  = (logged exampleWorld ++ closeLines)%list.
Proof.
  apply (copyFile_success_log ["dump"; "b.txt"] ["dst"; "b.txt"]).
  vm_compute. reflexivity.
Defined.

End CopyFile.


(** ** More on the batch organizer *)

Section OrganizerMore.

(** What [os.ReadDir] lists is there, and is a directory when the entry
    says so. *)
Lemma ReadDir_entries (σ : FS) (dir : path) (files : list DirEntry)
    (file : DirEntry) :
  fsys.ReadDir σ dir = inr files ->
  In file files ->
  exists n,
    fsys.resolve σ (filepath.Join dir (Name file)) = inr n
    /\ IsDir file = nodeIsDir n.
Proof.
  unfold fsys.ReadDir.
  destruct (fsys.resolve σ dir) as [e | [d m | m es]] eqn:Hdir; try discriminate.
  intros [= <-] Hin.
  apply list_elem_of_In in Hin.
  rewrite merge_sort_Permutation in Hin.
  apply list_elem_of_fmap in Hin as ([k n] & -> & Hkn).
  apply elem_of_map_to_list in Hkn.
  exists n. split; [| reflexivity].
  unfold filepath.Join, fsys.resolve in *. rewrite walk_app, Hdir.
  cbn. now rewrite Hkn.
Qed.

(** A file that no rule matches: the scan does nothing. *)
Lemma rangeDestinations_no_match (filename : string) (sourcePath : path)
    (dests : list Destination) (t : Tally) (w : World) :
  Forall (fun d => matchesPattern filename d = false) dests ->
  rangeDestinations filename sourcePath dests t w = ((t, false), w).
Proof.
  induction 1 as [|d dests Hd _ IH]; simpl; [reflexivity|].
  now rewrite Hd.
Qed.

Lemma rangeFiles_no_match (config : Config) (files : list DirEntry) :
  forall (t : Tally) (w : World),
  0 <= skippedCount t ->
  skippedCount t + Z.of_nat (length files) < 2 ^ 63 ->
  (forall file, In file files -> IsDir file = false ->
     Forall (fun d => matchesPattern (Name file) d = false)
            (Destinations config)) ->
  rangeFiles config files t w =
    ({| movedCount := movedCount t;
        skippedCount :=
          skippedCount t + Z.of_nat (length (regularFiles files)) |},
     {| fs := fs w;
        logged :=
          (logged w ++ ((fun file => LogNoMatch (Name file))
                          <$> regularFiles files))%list |}).
Proof.
  induction files as [|file rest IH]; intros t w Hs Hbound Hnone.
  - cbn. unfold ret. rewrite Z.add_0_r, app_nil_r. now destruct t, w.
  - rewrite length_cons in Hbound.
    cbn [rangeFiles]. rewrite bind_run. unfold organizeEntry.
    cbn [regularFiles List.filter].
    destruct (IsDir file) eqn:Hdir; cbn [negb].
    + unfold ret at 1. apply IH; [lia | lia |].
      intros f Hf. apply Hnone. now right.
    + rewrite bind_run, rangeDestinations_no_match
        by (apply Hnone; [now left | assumption]).
      cbn [negb]. unfold Printf, bind at 1, ret at 1. cbn beta iota.
      rewrite IH; cbn [skippedCount movedCount fs logged].
      * rewrite incr_small by lia. unfold regularFiles. cbn [length].
        f_equal; [f_equal; lia|].
        f_equal. cbn [fmap list_fmap]. now rewrite <- app_assoc.
      * rewrite incr_small by lia. lia.
      * rewrite incr_small by lia. lia.
      * intros f Hf. apply Hnone. now right.
Qed.

(** X8: a pass in which no rule matches any file changes nothing in the
    file system: every file gets its "no match" line, in the order of the
    listing, and the summary counts none moved and all of them skipped. A
    configuration without rules is the plainest case. *)
Theorem organizeFiles_no_match (config : Config) (w : World)
    (files : list DirEntry) :
  fsys.ReadDir (fs w) (DumpDirectory config) = inr files ->
  Z.of_nat (length files) < 2 ^ 63 ->
  (forall file, In file files -> IsDir file = false ->
     Forall (fun d => matchesPattern (Name file) d = false)
            (Destinations config)) ->
  organizeFiles config w =
    (None,
     {| fs := fs w;
        logged :=
          (logged w
           ++ ((fun file => LogNoMatch (Name file)) <$> regularFiles files)
           ++ [LogSummary 0 (Z.of_nat (length (regularFiles files)))])%list |}).
Proof.
  intros Hlist Hbound Hnone.
  unfold organizeFiles, os.ReadDir.
  rewrite bind_run. unfold bind at 1, ask, ret at 1. cbn beta iota.
  rewrite Hlist. cbn [opRes].
  rewrite bind_run, rangeFiles_no_match by (cbn; assumption || lia).
  unfold Printf, bind, ret. cbn. now rewrite <- app_assoc.
Qed.

Lemma organizeFiles_no_match_example :
  organizeFiles {| DumpDirectory := ["dump"]; Destinations := [] |} exampleWorld =
    (None,
     {| fs := exampleFS;
        logged := [ LogNoMatch "a.txt"; LogNoMatch "b.txt"; LogNoMatch "c.bin";
                    LogSummary 0 3 ] |}).
Proof.
  apply (organizeFiles_no_match
           {| DumpDirectory := ["dump"]; Destinations := [] |}
           exampleWorld exampleListing).
  - vm_compute. reflexivity.
  - vm_compute. reflexivity.
  - intros file _ _. constructor.
Defined.

Lemma keeps_rangeDestinations (filename : string) (sourcePath q : path)
    (dests : list Destination) (t : Tally) data mode :
  ~ sourcePath `prefix_of` q ->
  keeps q data mode (rangeDestinations filename sourcePath dests t).
Proof.
  intros Hsq. induction dests as [|d rest IH]; cbn [rangeDestinations].
  - apply keeps_ret.
  - destruct (matchesPattern filename d); [| exact IH].
    apply keeps_bind; [apply keeps_Printf | intros _].
    apply keeps_bind; [now apply keeps_moveFile | intros err].
    destruct err;
      (apply keeps_bind; [apply keeps_Printf | intros _; apply keeps_ret]).
Qed.

Lemma keeps_organizeEntry (config : Config) (file : DirEntry) (t : Tally)
    (q : path) data mode :
  (IsDir file = false ->
   ~ filepath.Join (DumpDirectory config) (Name file) `prefix_of` q
   \/ Forall (fun d => matchesPattern (Name file) d = false)
             (Destinations config)) ->
  keeps q data mode (organizeEntry config file t).
Proof.
  intros Hfile. unfold organizeEntry.
  destruct (IsDir file); [apply keeps_ret|].
  apply keeps_bind.
  - destruct (Hfile eq_refl) as [Hsq | Hnone].
    + now apply keeps_rangeDestinations.
    + intros w Hq. now rewrite rangeDestinations_no_match.
  - intros [t' moved]. destruct (negb moved).
    + apply keeps_bind; [apply keeps_Printf | intros _; apply keeps_ret].
    + apply keeps_ret.
Qed.

Lemma keeps_rangeFiles (config : Config) (files : list DirEntry) (q : path)
    data mode :
  (forall file, In file files -> IsDir file = false ->
   ~ filepath.Join (DumpDirectory config) (Name file) `prefix_of` q
   \/ Forall (fun d => matchesPattern (Name file) d = false)
             (Destinations config)) ->
  forall t, keeps q data mode (rangeFiles config files t).
Proof.
  induction files as [|file rest IH]; intros Hfiles t; cbn [rangeFiles].
  - apply keeps_ret.
  - apply keeps_bind.
    + apply keeps_organizeEntry. apply Hfiles. now left.
    + intros t'. apply IH. intros f Hf. apply Hfiles. now right.
Qed.

(** A pass leaves a regular file alone unless it lies right in the dump
    directory and a rule matches its name. *)
Lemma keeps_organizeFiles (config : Config) (q : path) data mode :
  (forall name,
      q = filepath.Join (DumpDirectory config) name ->
      Forall (fun d => matchesPattern name d = false) (Destinations config)) ->
  keeps q data mode (organizeFiles config).
Proof.
  intros Hq w Hres. unfold organizeFiles, os.ReadDir.
  rewrite bind_run. unfold bind at 1, ask, ret at 1. cbn beta iota.
  destruct (fsys.ReadDir (fs w) (DumpDirectory config)) as [e | files] eqn:Hlist;
    cbn [opRes]; [exact Hres|].
  rewrite bind_run.
  assert (Hkeep : keeps q data mode
                    (rangeFiles config files
                       {| movedCount := 0; skippedCount := 0 |})).
  { apply keeps_rangeFiles. intros file Hin Hreg.
    destruct (decide (filepath.Join (DumpDirectory config) (Name file)
                        `prefix_of` q)) as [Hpre | Hpre]; [| now left].
    right. apply Hq.
    destruct (decide (filepath.Join (DumpDirectory config) (Name file) = q))
      as [Heq | Hne]; [now symmetry|].
    exfalso.
    destruct (ReadDir_entries _ _ _ _ Hlist Hin) as (n & Hn & Hdir).
    destruct (resolve_through _ _ _ _ Hres Hpre Hne) as (m & es & Hd).
    rewrite Hn in Hd. injection Hd as ->. simpl in Hdir. congruence. }
  specialize (Hkeep w Hres).
  destruct (rangeFiles config files {| movedCount := 0; skippedCount := 0 |} w)
    as [t w1].
  exact Hkeep.
Qed.

(** X9: a pass changes no regular file other than the files right in the
    dump directory that a rule matches. Whatever is in a destination
    directory already, whatever lies in a directory below the dump
    directory, and every file of the dump directory that no rule matches
    is there afterwards with the same bytes and mode. *)
Theorem organizeFiles_leaves_other_files (config : Config) (w : World)
    (q : path) data mode :
  fsys.resolve (fs w) q = inr (File data mode) ->
  (forall name,
      q = filepath.Join (DumpDirectory config) name ->
      Forall (fun d => matchesPattern name d = false) (Destinations config)) ->
  fsys.resolve (fs (organizeFiles config w).2) q = inr (File data mode).
Proof.
  intros Hres Hq. now apply keeps_organizeFiles.
Qed.

(** The a.txt that /dst has is not overwritten by the pass. *)
Lemma organizeFiles_leaves_other_files_example :
  fsys.resolve (fs (organizeFiles exampleConfig exampleWorld).2) ["dst"; "a.txt"]
  = inr (File (bytes "old") 420).
Proof.
  apply (organizeFiles_leaves_other_files exampleConfig exampleWorld
           ["dst"; "a.txt"]).
  - vm_compute. reflexivity.
  - intros name Hname. discriminate Hname.
Defined.

(** X10: the two numbers of the summary line. [movedCount] is at most the
    number of regular files of the listing, and [skippedCount] lies
    between the number of files that were not moved and twice that
    number: a file no rule matched counts once, a file whose move failed
    counts twice. *)
Theorem organizeFiles_summary_bounds (config : Config) (w : World)
    (files : list DirEntry) :
  fsys.ReadDir (fs w) (DumpDirectory config) = inr files ->
  2 * Z.of_nat (length files) < 2 ^ 63 ->
  exists body m s w',
    organizeFiles config w = (None, w')
    /\ logged w' = (logged w ++ body ++ [LogSummary m s])%list
    /\ 0 <= m <= Z.of_nat (length (regularFiles files))
    /\ s = Z.of_nat (length (regularFiles files)) - m
           + countLog isErrorMoving body
    /\ Z.of_nat (length (regularFiles files)) - m <= s
       <= 2 * (Z.of_nat (length (regularFiles files)) - m).
Proof.
  intros Hlist Hbound.
  destruct (organizeFiles_listed config w files Hlist Hbound)
    as (body & m & s & w' & Hrun & Hlog & Hm & Hs & Hfiles & Hle & _).
  exists body, m, s, w'.
  pose proof (countLog_nonneg isSuccess body).
  pose proof (countLog_nonneg isErrorMoving body).
  pose proof (countLog_nonneg isNoMatch body).
  split; [exact Hrun|]. split; [exact Hlog|].
  split; [lia|]. split; lia.
Qed.

Lemma organizeFiles_summary_bounds_example :
  exists body m s w',
    organizeFiles exampleConfig exampleWorld = (None, w')
    /\ logged w' = (logged exampleWorld ++ body ++ [LogSummary m s])%list
    /\ 0 <= m <= Z.of_nat (length (regularFiles exampleListing))
    /\ s = Z.of_nat (length (regularFiles exampleListing)) - m
           + countLog isErrorMoving body
    /\ Z.of_nat (length (regularFiles exampleListing)) - m <= s
       <= 2 * (Z.of_nat (length (regularFiles exampleListing)) - m).
Proof.
  apply (organizeFiles_summary_bounds exampleConfig exampleWorld exampleListing).
  - vm_compute. reflexivity.
  - vm_compute. reflexivity.
Defined.

End OrganizerMore.

(** ** More on the debounced watch loop *)

Section DebounceMore.

Lemma spaced_le_all (lo : Z) (xs : list Z) :
  spaced Z.le lo xs -> Forall (fun x => lo <= x) xs.
Proof.
  revert lo. induction xs as [|x xs IH]; intros lo Hsp; [constructor|].
  destruct Hsp as [Hle Hsp]. constructor; [exact Hle|].
  eapply Forall_impl; [exact (IH x Hsp)|]. intros y Hy. cbn in Hy. lia.
Qed.

Lemma debounced_nonempty (t : Z) (ts : list Z) : debounced t ts <> [].
Proof.
  revert t. induction ts as [|t' ts IH]; intros t; cbn [debounced];
    [discriminate|].
  destruct (Z.leb (t + debounceDelay) t'); [discriminate | apply IH].
Qed.

Lemma debounced_length (t : Z) (ts : list Z) :
  (length (debounced t ts) <= S (length ts))%nat.
Proof.
  revert t. induction ts as [|t' ts IH]; intros t; cbn [debounced length];
    [lia|].
  specialize (IH t').
  destruct (Z.leb (t + debounceDelay) t'); cbn [length]; lia.
Qed.

Lemma debounced_last (t : Z) (ts : list Z) :
  last (debounced t ts) = Some (List.last ts t + debounceDelay).
Proof.
  revert t. induction ts as [|t' ts IH]; intros t; cbn [debounced];
    [reflexivity|].
  rewrite last_cons.
  destruct (Z.leb (t + debounceDelay) t'); [| apply IH].
  specialize (IH t').
  destruct (debounced t' ts) eqn:Hd; [now apply debounced_nonempty in Hd|].
  exact IH.
Qed.

(** X11: whatever the spacing of the events, a stream of N >= 1 events
    leads to at least one pass and to at most N; the passes are those of
    [debounced], one for every event that is followed by no other event
    within the delay, and the last pass comes a delay after the last
    event. *)
Theorem debounce_any_spacing (t : Z) (ts : list Z) :
  passesOf (t :: ts) = debounced t ts
  /\ (1 <= length (passesOf (t :: ts)) <= length (t :: ts))%nat
  /\ last (passesOf (t :: ts)) = Some (List.last ts t + debounceDelay).
Proof.
  rewrite passesOf_debounced. split; [reflexivity|]. split.
  - pose proof (debounced_length t ts). pose proof (debounced_nonempty t ts).
    destruct (debounced t ts); [congruence|]. cbn [length] in *. lia.
  - apply debounced_last.
Qed.

(** Every pass comes a delay after an event, and no event lies within the
    delay before it. *)
Lemma debounced_quiet (ts : list Z) :
  forall t p,
  spaced Z.le t ts ->
  In p (debounced t ts) ->
  In (p - debounceDelay) (t :: ts)
  /\ Forall (fun e => e <= p - debounceDelay \/ p <= e) (t :: ts).
Proof.
  induction ts as [|t' ts IH]; intros t p Hsp Hin.
  - cbn in Hin. destruct Hin as [<- | []].
    split; [left; lia|]. constructor; [left; lia | constructor].
  - destruct Hsp as [Hle Hsp]. cbn [debounced] in Hin.
    pose proof (spaced_le_all t' ts Hsp) as Hall.
    assert (Hrec : In p (debounced t' ts) ->
                   In (p - debounceDelay) (t :: t' :: ts)
                   /\ Forall (fun e => e <= p - debounceDelay \/ p <= e)
                        (t :: t' :: ts)).
    { intros Hp. destruct (IH t' p Hsp Hp) as [Hev Hq].
      split; [now right|]. constructor; [| exact Hq].
      left. destruct Hev as [<- | Hev]; [lia|].
      rewrite Forall_forall in Hall. apply list_elem_of_In in Hev.
      specialize (Hall _ Hev). lia. }
    destruct (Z.leb_spec (t + debounceDelay) t'); [| now apply Hrec].
    destruct Hin as [<- | Hin]; [| now apply Hrec].
    split; [left; lia|].
    constructor; [left; lia|]. constructor; [right; lia|].
    eapply Forall_impl; [exact Hall|]. intros e He. cbn in He. right. lia.
Qed.

(** X12: with the events in the order of their instants, every pass
    starts exactly one delay after some event, and no event has come in
    the delay before it: a pass never starts while the directory has been
    touched less than five seconds ago. *)
Theorem debounce_quiet_period (t : Z) (ts : list Z) (p : Z) :
  spaced Z.le t ts ->
  In p (passesOf (t :: ts)) ->
  In (p - debounceDelay) (t :: ts)
  /\ Forall (fun e => ~ (p - debounceDelay < e < p)) (t :: ts).
Proof.
  intros Hsp Hin. rewrite passesOf_debounced in Hin.
  destruct (debounced_quiet ts t p Hsp Hin) as [Hev Hq].
  split; [exact Hev|].
  eapply Forall_impl; [exact Hq|]. intros e He. cbn in He. lia.
Qed.

Lemma debounce_quiet_period_example :
  In (14 * Second - debounceDelay) [0; 2 * Second; 7 * Second; 9 * Second]
  /\ Forall (fun e => ~ (14 * Second - debounceDelay < e < 14 * Second))
       [0; 2 * Second; 7 * Second; 9 * Second].
Proof.
  apply (debounce_quiet_period 0 [2 * Second; 7 * Second; 9 * Second]
           (14 * Second)).
  - vm_compute. repeat split; discriminate.
  - vm_compute. right. now left.
Defined.

Lemma elapse_armed_early (t now : Z) (l : Loop) :
  armedAt t l -> now < t + debounceDelay ->
  passes (elapse now l) = passes l.
Proof.
  intros (old & Hts & _ & Hold) Hearly.
  destruct (fire_unarmed now old Hold) as [_ Hdue].
  unfold elapse. cbn [passes].
  rewrite Hts, filter_app, Hdue, filter_cons_False.
  - cbn. now rewrite app_nil_r.
  - unfold isDue, AfterFunc. cbn [state due].
    destruct (Z.leb_spec (t + debounceDelay) now); [lia | congruence].
Qed.

(** X13: the shutdown stops what is pending. After a stream of events, a
    signal that comes before the timer is due leaves the
    passes at those that have run; without the signal one more pass would
    follow, a delay after the last event. And whenever the signal comes,
    nothing fires after it. *)
Theorem shutdown_cancels_pending (t : Z) (ts : list Z) (now : Z) :
  let l := watchLoop (Event <$> t :: ts) idle in
  passes (settle (onSignal now l)) = passes (elapse now l)
  /\ (now < List.last ts t + debounceDelay ->
      passes (settle (onSignal now l)) = passes l
      /\ passes (settle l) = (passes l ++ [List.last ts t + debounceDelay])%list).
Proof.
  intros l.
  assert (Harmed : armedAt (List.last ts t) l).
  { unfold l.
    change (watchLoop (Event <$> t :: ts) idle)
      with (watchLoop (Event <$> ts) (onReceive (Event t) idle)).
    destruct (onReceive_idle t) as [Hidle _].
    now destruct (watchLoop_armed ts t _ Hidle) as [Hlast _]. }
  pose proof (onSignal_armed _ now l Harmed) as Hsig.
  split; [exact Hsig|].
  intros Hearly. split.
  - rewrite Hsig. now apply (elapse_armed_early (List.last ts t)).
  - now apply settle_armed.
Qed.

Lemma shutdown_cancels_pending_example :
  passes (settle (onSignal (4 * Second)
                    (watchLoop (Event <$> [0; 1 * Second]) idle))) = []
  /\ passes (settle (watchLoop (Event <$> [0; 1 * Second]) idle))
     = [6 * Second].
Proof.
  destruct (shutdown_cancels_pending 0 [1 * Second] (4 * Second)) as [_ Hearly].
  destruct Hearly as [Hstop Hrun]; [vm_compute; reflexivity|].
  split; [exact Hstop | exact Hrun].
Defined.

Lemma alter_Stop_unarmed (i : nat) (ts : list Timer) :
  Forall (fun x => isArmed x = false) ts -> alter Stop i ts = ts.
Proof.
  intros Hts. revert i. induction Hts as [|x ts Hx _ IH]; intros i;
    [reflexivity|].
  destruct i as [|i]; cbn [alter list_alter].
  - f_equal. unfold Stop. unfold isArmed in Hx. destruct x as [d []]; cbn in *;
      congruence.
  - f_equal. apply IH.
Qed.

Lemma elapse_spent (now : Z) (l : Loop) : spent l -> elapse now l = l.
Proof.
  intros Hsp. destruct (fire_unarmed now (timers l) Hsp) as [Hfire Hdue].
  unfold elapse. rewrite Hfire, Hdue. cbn [fmap list_fmap].
  rewrite app_nil_r. now destruct l.
Qed.

Lemma onReceive_spent (now : Z) (l : Loop) :
  spent l ->
  armedAt now (onReceive (Event now) l)
  /\ passes (onReceive (Event now) l) = passes l.
Proof.
  intros Hsp. unfold onReceive. rewrite (elapse_spent now l Hsp).
  cbn [timers timer passes]. split; [| reflexivity].
  assert (Hts : match timer l with
                | Some i => alter Stop i (timers l)
                | None => timers l
                end = timers l).
  { destruct (timer l); [now apply alter_Stop_unarmed | reflexivity]. }
  rewrite Hts. exists (timers l). repeat split. exact Hsp.
Qed.

Lemma settle_spent (l : Loop) : spent l -> passes (settle l) = passes l.
Proof.
  intros Hsp. unfold settle. cbn [passes].
  rewrite (settle_unarmed _ Hsp). cbn [fmap list_fmap]. apply app_nil_r.
Qed.

(** An error at [now] met by an armed loop: the timer has fired if it was
    due, and goes on waiting if not. *)
Lemma onError_armed (t now : Z) (l : Loop) :
  armedAt t l ->
  let l' := onReceive (WatchError now) l in
  if Z.leb (t + debounceDelay) now
  then spent l' /\ passes l' = (passes l ++ [t + debounceDelay])%list
  else armedAt t l' /\ passes l' = passes l.
Proof.
  intros (old & Hts & Htimer & Hold) l'.
  destruct (fire_unarmed now old Hold) as [Hfire Hdue].
  unfold l', onReceive, elapse, spent, armedAt. cbn [timers timer passes].
  rewrite Hts, Htimer, fmap_app, filter_app, Hfire, Hdue.
  cbn [fmap list_fmap app].
  unfold fire, isDue, AfterFunc. cbn [state due].
  destruct (Z.leb (t + debounceDelay) now) eqn:Hle.
  - split.
    + apply Forall_app. split; [exact Hold|]. constructor; [reflexivity|].
      constructor.
    + rewrite filter_cons_True by (cbn [state due]; exact Hle). reflexivity.
  - split.
    + exists old. repeat split. exact Hold.
    + rewrite filter_cons_False by (cbn [state due]; congruence).
      cbn. apply app_nil_r.
Qed.

Lemma eventsOf_le (lo : Z) (rs : list Received) :
  Forall (fun x => lo <= x) (instantOf <$> rs) ->
  Forall (fun x => lo <= x) (eventsOf rs).
Proof.
  induction rs as [|[now|now] rs IH]; intros Hall; cbn in *;
    [constructor | |]; inversion Hall; subst.
  - constructor; [assumption | now apply IH].
  - now apply IH.
Qed.

Lemma debounced_after (t : Z) (ts : list Z) :
  Forall (fun x => t + debounceDelay <= x) ts ->
  debounced t ts = (t + debounceDelay) :: tl (debounced t ts).
Proof.
  destruct ts as [|t' ts]; intros Hall; cbn [debounced]; [reflexivity|].
  inversion Hall; subst.
  destruct (Z.leb_spec (t + debounceDelay) t'); [reflexivity | lia].
Qed.

(** What is received after an event at [t], in the order of the instants:
    the passes are those the events alone lead to, whether the timer of
    [t] is still armed or has fired in between. *)
Lemma watchLoop_errors (rs : list Received) :
  forall (t lo : Z) (l : Loop),
  spaced Z.le lo (instantOf <$> rs) ->
  (armedAt t l ->
   passes (settle (watchLoop rs l))
   = (passes l ++ debounced t (eventsOf rs))%list)
  /\ (spent l -> t + debounceDelay <= lo ->
      passes (settle (watchLoop rs l))
      = (passes l ++ tl (debounced t (eventsOf rs)))%list).
Proof.
  induction rs as [|r rs IH]; intros t lo l Hsp.
  - split.
    + intros Harmed. cbn [watchLoop fold_left eventsOf omap list_omap debounced].
      now apply settle_armed.
    + intros Hspent _. cbn. rewrite app_nil_r. now apply settle_spent.
  - cbn [fmap list_fmap] in Hsp. destruct Hsp as [Hlo Hsp].
    change (watchLoop (r :: rs) l) with (watchLoop rs (onReceive r l)).
    destruct r as [now|now]; cbn [instantOf] in Hlo, Hsp.
    + change (eventsOf (Event now :: rs)) with (now :: eventsOf rs).
      split.
      * intros Harmed.
        destruct (onReceive_armed t now l Harmed) as [Harmed' Hpasses].
        destruct (IH now now (onReceive (Event now) l) Hsp) as [IHa _].
        rewrite (IHa Harmed'), Hpasses. cbn [debounced].
        destruct (Z.leb (t + debounceDelay) now);
          now rewrite <- app_assoc.
      * intros Hspent Hdue.
        destruct (onReceive_spent now l Hspent) as [Harmed' Hpasses].
        destruct (IH now now (onReceive (Event now) l) Hsp) as [IHa _].
        rewrite (IHa Harmed'), Hpasses. cbn [debounced].
        destruct (Z.leb_spec (t + debounceDelay) now); [reflexivity | lia].
    + change (eventsOf (WatchError now :: rs)) with (eventsOf rs).
      split.
      * intros Harmed.
        pose proof (onError_armed t now l Harmed) as Herr. cbv zeta in Herr.
        destruct (Z.leb_spec (t + debounceDelay) now) as [Hdue|Hearly].
        -- destruct Herr as [Hspent Hpasses].
           destruct (IH t now (onReceive (WatchError now) l) Hsp) as [_ IHs].
           rewrite (IHs Hspent Hdue), Hpasses, <- app_assoc. f_equal.
           cbn [app]. symmetry. apply debounced_after.
           apply eventsOf_le.
           eapply Forall_impl; [exact (spaced_le_all _ _ Hsp)|].
           intros x Hx. cbn in Hx. lia.
        -- destruct Herr as [Harmed' Hpasses].
           destruct (IH t now (onReceive (WatchError now) l) Hsp) as [IHa _].
           now rewrite (IHa Harmed'), Hpasses.
      * intros Hspent Hdue.
        change (onReceive (WatchError now) l) with (elapse now l).
        rewrite (elapse_spent now l Hspent).
        destruct (IH t now l Hsp) as [_ IHs].
        apply IHs; [exact Hspent | lia].
Qed.

(** X14: the errors of the watcher change nothing. Whatever is received,
    events and errors in the order of their instants, the organize passes
    are those of the events alone. *)
Theorem watch_errors_ignored (lo : Z) (rs : list Received) :
  spaced Z.le lo (instantOf <$> rs) ->
  passes (settle (watchLoop rs idle)) = passesOf (eventsOf rs).
Proof.
  revert lo. induction rs as [|[now|now] rs IH]; intros lo Hsp.
  - reflexivity.
  - destruct Hsp as [_ Hsp].
    change (eventsOf (Event now :: rs)) with (now :: eventsOf rs).
    rewrite passesOf_debounced.
    change (watchLoop (Event now :: rs) idle)
      with (watchLoop rs (onReceive (Event now) idle)).
    destruct (onReceive_idle now) as [Harmed Hpasses].
    destruct (watchLoop_errors rs now now (onReceive (Event now) idle) Hsp)
      as [Ha _].
    now rewrite (Ha Harmed), Hpasses.
  - destruct Hsp as [_ Hsp].
    change (eventsOf (WatchError now :: rs)) with (eventsOf rs).
    change (watchLoop (WatchError now :: rs) idle)
      with (watchLoop rs (elapse now idle)).
    change (elapse now idle) with idle.
    exact (IH now Hsp).
Qed.

Lemma watch_errors_ignored_example :
  passes (settle (watchLoop [Event 0; WatchError (6 * Second);
                             WatchError (7 * Second); Event (8 * Second)]
                    idle))
  = passesOf [0; 8 * Second].
Proof.
  apply (watch_errors_ignored 0
           [Event 0; WatchError (6 * Second); WatchError (7 * Second);
            Event (8 * Second)]).
  vm_compute. repeat split; discriminate.
Defined.

End DebounceMore.

(** ** Rules that hide other rules *)

Section Shadowing.

Lemma matchesPattern_broader (filename : string) (broad narrow : Destination) :
  Prefix broad <> "" -> Suffix broad = "" ->
  Prefix narrow = Prefix broad ->
  matchesPattern filename narrow = true ->
  matchesPattern filename broad = true.
Proof.
  intros Hp Hs Heq. unfold matchesPattern, nonempty. rewrite Hs, Heq.
  apply String.eqb_neq in Hp. rewrite Hp. cbn.
  destruct (negb (String.eqb (Suffix narrow) "")); [| tauto].
  now intros [H _]%andb_true_iff.
Qed.

Lemma rangeDestinations_skip (filename : string) (sourcePath : path)
    (mid post : list Destination) (dest : Destination) (t : Tally) :
  matchesPattern filename dest = false ->
  rangeDestinations filename sourcePath (mid ++ dest :: post) t
  = rangeDestinations filename sourcePath (mid ++ post) t.
Proof.
  intros Hno. induction mid as [|d mid IH]; cbn [app rangeDestinations].
  - now rewrite Hno.
  - now rewrite IH.
Qed.

(** X15: a rule that only asks for a prefix hides every later rule with
    the same prefix, whatever suffix the later rule asks for: with or
    without the later rule the loop over the rules does the same for
    every file, since it stops at the first rule that matches. *)
Theorem rangeDestinations_shadowed (filename : string) (sourcePath : path)
    (pre mid post : list Destination) (broad narrow : Destination)
    (t : Tally) :
  Prefix broad <> "" -> Suffix broad = "" ->
  Prefix narrow = Prefix broad ->
  rangeDestinations filename sourcePath
    (pre ++ broad :: mid ++ narrow :: post) t
  = rangeDestinations filename sourcePath (pre ++ broad :: mid ++ post) t.
Proof.
  intros Hp Hs Heq.
  induction pre as [|d pre IH]; cbn [app rangeDestinations].
  - destruct (matchesPattern filename broad) eqn:Hb; [reflexivity|].
    apply rangeDestinations_skip.
    destruct (matchesPattern filename narrow) eqn:Hn; [| reflexivity].
    rewrite (matchesPattern_broader filename broad narrow Hp Hs Heq Hn) in Hb.
    discriminate.
  - now rewrite IH.
Qed.

Lemma rangeDestinations_shadowed_example :
  rangeDestinations "report-2024.pdf" ["dump"; "report-2024.pdf"]
    ([] ++ {| Path := ["all"]; Prefix := "report"; Suffix := "" |}
        :: [] ++ {| Path := ["pdf"]; Prefix := "report"; Suffix := ".pdf" |}
        :: [])
    {| movedCount := 0; skippedCount := 0 |}
  = rangeDestinations "report-2024.pdf" ["dump"; "report-2024.pdf"]
      ([] ++ {| Path := ["all"]; Prefix := "report"; Suffix := "" |}
          :: [] ++ [])
      {| movedCount := 0; skippedCount := 0 |}.
Proof.
  apply (rangeDestinations_shadowed "report-2024.pdf"
           ["dump"; "report-2024.pdf"] [] [] []
           {| Path := ["all"]; Prefix := "report"; Suffix := "" |}
           {| Path := ["pdf"]; Prefix := "report"; Suffix := ".pdf" |}).
  - discriminate.
  - reflexivity.
  - reflexivity.
Defined.

End Shadowing.

(** ** More on the start-up *)

Section StartUpMore.



End StartUpMore.

(** ** The configuration loader *)

Section Loader.

Variable Unmarshal : list Byte.byte -> error + Config.


Lemma Dir_Join (dir : path) (name : string) :
  filepath.Dir (filepath.Join dir name) = dir.
Proof. unfold filepath.Dir, filepath.Join. apply removelast_last. Qed.

Lemma Join_nonempty (dir : path) (name : string) : filepath.Join dir name <> [].
Proof. unfold filepath.Join. now destruct dir. Qed.

(** [os.Create] of a name that does not resolve, in the directory [dir]. *)
Lemma Create_Join (σ : FS) (dir : path) (name : string) (e : errno) :
  let p := filepath.Join dir name in
  fsys.resolve σ p = inl e ->
  fsys.Create σ p
  = match fsys.resolve σ dir with
    | inr (Directory _ _) =>
        (fsys.put σ p (File [] (Z.ldiff perm666 (umask σ))), inr p)
    | inr (File _ _) => (σ, inl ENOTDIR)
    | inl e => (σ, inl e)
    end.
Proof.
  intros p Hp. unfold fsys.Create. rewrite Hp.
  pose proof (Dir_Join dir name) as Hdir. fold p in Hdir.
  pose proof (Join_nonempty dir name) as Hne. fold p in Hne.
  clearbody p. destruct p as [|c rest]; [congruence|].
  now rewrite Hdir.
Qed.

(** What [readAndParse] does with a regular file. *)
Lemma readAndParse_file (p : path) (w : World) data mode :
  fsys.resolve (fs w) p = inr (File data mode) ->
  (program.readAndParse p Unmarshal w).1
  = match Unmarshal data with
    | inl err => LoadError (Errorf "failed to parse YAML" err)
    | inr config => LoadConfig config
    end
  /\ fs (program.readAndParse p Unmarshal w).2 = fs w.
Proof.
  intros Hp.
  unfold program.readAndParse, os_ReadFile, bind, Printf, ask, ret.
  cbn [fs logged]. rewrite Hp.
  destruct (Unmarshal data); split; reflexivity.
Qed.

Lemma keeps_readAndParse (p q : path) data mode :
  keeps q data mode (program.readAndParse p Unmarshal).
Proof.
  unfold program.readAndParse, os_ReadFile. repeat keeps_step.
Qed.

(** X17: the first run. With the home directory there and no
    configuration file in it, [loadConfig] creates the file, empty, and
    goes on to parse it: what it returns is what [yaml.Unmarshal] makes
    of no bytes at all, and the process is not stopped. *)
Theorem loadConfig_first_run (home : path) (w : World) (m : Z)
    (es : gmap string node) :
  fsys.resolve (fs w) home = inr (Directory m es) ->
  fsys.resolve (fs w) (filepath.Join home program.filename) = inl ENOENT ->
  let r := program.loadConfig (inr home) Unmarshal w in
  r.1 = match Unmarshal [] with
        | inl err => LoadError (Errorf "failed to parse YAML" err)
        | inr config => LoadConfig config
        end
  /\ fsys.resolve (fs r.2) (filepath.Join home program.filename)
     = inr (File [] (Z.ldiff perm666 (umask (fs w)))).
Proof.
  intros Hhome Hcfg r. unfold r, program.loadConfig. cbv zeta.
  set (p := filepath.Join home program.filename) in *.
  pose proof (Create_Join (fs w) home program.filename ENOENT Hcfg) as HC.
  cbv zeta in HC. fold p in HC. rewrite Hhome in HC.
  unfold os.Open, os.Create, bind, ask, sys, ret, Printf. cbn [fs logged].
  unfold fsys.Open. rewrite Hcfg. cbn [opRes IsErrNotExist].
  rewrite HC. cbn [opRes].
  assert (Hnew : fsys.resolve
                   (fsys.put (fs w) p (File [] (Z.ldiff perm666 (umask (fs w)))))
                   p = inr (File [] (Z.ldiff perm666 (umask (fs w))))).
  { apply (put_resolve_same _ _ _ m es).
    - apply Join_nonempty.
    - unfold p. now rewrite Dir_Join. }
  match goal with
  | |- context [program.readAndParse p Unmarshal ?w1] =>
      destruct (readAndParse_file p w1 _ _ Hnew) as [Hres Hfs]
  end.
  split; [exact Hres|]. rewrite Hfs. exact Hnew.
Qed.

(** X18: a configuration file that is there is read and never written:
    [loadConfig] returns what [yaml.Unmarshal] makes of its bytes, and the
    file system is as before. *)
Theorem loadConfig_existing (home : path) (w : World) data mode :
  fsys.resolve (fs w) (filepath.Join home program.filename)
  = inr (File data mode) ->
  let r := program.loadConfig (inr home) Unmarshal w in
  r.1 = match Unmarshal data with
        | inl err => LoadError (Errorf "failed to parse YAML" err)
        | inr config => LoadConfig config
        end
  /\ fs r.2 = fs w.
Proof.
  intros Hcfg r. unfold r, program.loadConfig. cbv zeta.
  unfold os.Open, bind, ask, ret. cbn [fs logged].
  unfold fsys.Open. rewrite Hcfg. cbn [opRes].
  now apply (readAndParse_file _ _ data mode).
Qed.

(** X19: whatever it meets, [loadConfig] leaves every regular file as it
    is, contents and mode: the one change it can make is the creation of
    a configuration file that was not there. *)
Theorem loadConfig_keeps_files (UserHomeDir : error + path) (w : World)
    (q : path) data mode :
  fsys.resolve (fs w) q = inr (File data mode) ->
  fsys.resolve (fs (program.loadConfig UserHomeDir Unmarshal w).2) q
  = inr (File data mode).
Proof.
  intros Hq. revert w Hq. change (keeps q data mode
                                    (program.loadConfig UserHomeDir Unmarshal)).
  unfold program.loadConfig. destruct UserHomeDir as [err | home];
    [repeat keeps_step|]. cbv zeta.
  set (p := filepath.Join home program.filename).
  intros w Hq. rewrite bind_run, Open_run. unfold fsys.Open.
  destruct (fsys.resolve (fs w) p) as [e | n] eqn:Hp; cbn [opRes].
  - destruct (IsErrNotExist (PathError "open" p e)); [| exact Hq].
    revert w Hq Hp.
    assert (Hcreate : forall w,
              fsys.resolve (fs w) p = inl e ->
              fsys.resolve (fs w) q = inr (File data mode) ->
              fsys.resolve (fs (os.Create p w).2) q = inr (File data mode)).
    { intros w Hp Hq. unfold os.Create, bind, sys, ret.
      pose proof (Create_leaves (fs w) p q data mode
                    (missing_not_prefix _ _ _ _ _ Hp Hq) Hq) as Hk.
      destruct (fsys.Create (fs w) p) as [σ r0]. exact Hk. }
    intros w Hq Hp.
    unfold bind at 1. unfold Printf at 1. cbn beta iota.
    unfold bind at 1. unfold Printf at 1. cbn beta iota.
    rewrite bind_run.
    match goal with
    | |- context [os.Create p ?w1] =>
        pose proof (Hcreate w1 Hp Hq) as Hk; destruct (os.Create p w1) as [c w2]
    end.
    cbn [snd] in Hk.
    destruct c as [err | f]; [exact Hk|].
    now apply keeps_readAndParse.
  - now apply keeps_readAndParse.
Qed.


End Loader.

Section LoaderExamples.

Lemma loadConfig_first_run_example :
  let r := program.loadConfig (inr ["dst"]) exampleUnmarshal exampleWorld in
  r.1 = LoadConfig {| DumpDirectory := []; Destinations := [] |}
  /\ fsys.resolve (fs r.2) ["dst"; ".prefix.yaml"] = inr (File [] 420).
Proof.
  apply (loadConfig_first_run exampleUnmarshal ["dst"] exampleWorld 493
           {[ "a.txt" := File (bytes "old") 420 ]}).
  - vm_compute. reflexivity.
  - vm_compute. reflexivity.
Defined.

Lemma loadConfig_existing_example :
  let w := (program.loadConfig (inr ["dst"]) exampleUnmarshal exampleWorld).2 in
  let r := program.loadConfig (inr ["dst"]) exampleUnmarshal w in
  r.1 = LoadConfig {| DumpDirectory := []; Destinations := [] |}
  /\ fs r.2 = fs w.
Proof.
  intros w.
  apply (loadConfig_existing exampleUnmarshal ["dst"] w [] 420).
  vm_compute. reflexivity.
Defined.

Lemma loadConfig_keeps_files_example :
  fsys.resolve
    (fs (program.loadConfig (inr ["dst"]) exampleUnmarshal exampleWorld).2)
    ["dst"; "a.txt"]
  = inr (File (bytes "old") 420).
Proof.
  apply (loadConfig_keeps_files exampleUnmarshal (inr ["dst"]) exampleWorld
           ["dst"; "a.txt"] (bytes "old") 420).
  vm_compute. reflexivity.
Defined.

End LoaderExamples.
